(** * Priority Row Stack (PRS): a shallow embedding of [prs/core.py]

    The Python module defines an exception hierarchy, the internal
    [PRSRow] (a capacity-bounded row of [n] priority buckets) and the
    public [PriorityRowStack] (a stack of rows).  Methods mutate [self]
    and may raise; they are embedded as functions from the object's state
    to a result (a value or the class of the raised exception) paired
    with the state the object is left in, so that the effect of a call
    that raises half-way is kept.

    Python integers are unbounded: [k], [n], [m], [count], [_size] and
    priorities are [Z].  Bucket indices come from [range(n)] or from
    [priority - 1] after the check [1 <= priority] and are [nat].
    Exception messages are not modelled, only exception classes.  The
    optional re-entrant lock is acquired and released around each public
    method and has no effect on a sequential run; it is left out. *)

From Stdlib Require Import String ZArith List Lia Bool Permutation.
Import ListNotations.
Open Scope Z_scope.

(** ** Exceptions *)

Inductive exn_class : Type :=
| Exception        (* builtin root of all the classes below *)
| ValueError       (* builtin *)
| AssertionError   (* builtin *)
| IndexError       (* builtin *)
| PRSError
| PriorityError
| EmptyError
| RowFullError.





(** ** Results and the state-and-exception monad *)

Inductive result (A : Type) : Type :=
| Ok (a : A)
| Raise (e : exn_class).
Arguments Ok {A} a.
Arguments Raise {A} e.

Definition M (S A : Type) : Type := S -> result A * S.

Definition ret {S A} (a : A) : M S A := fun s => (Ok a, s).
Definition raise {S A} (e : exn_class) : M S A := fun s => (Raise e, s).
Definition bind {S A B} (c : M S A) (f : A -> M S B) : M S B :=
  fun s =>
    match c s with
    | (Ok a, s') => f a s'
    | (Raise e, s') => (Raise e, s')
    end.
Definition get {S} : M S S := fun s => (Ok s, s).
Definition modify {S} (f : S -> S) : M S unit := fun s => (Ok tt, f s).
(** A computation that cannot touch the state. *)
Definition pure_result {S A} (r : result A) : M S A := fun s => (r, s).

Declare Scope prs_scope.
Delimit Scope prs_scope with prs.
Notation "x <- c ;; f" := (bind c (fun x => f))
  (at level 61, c at next level, right associativity) : prs_scope.
Notation "c ;;; f" := (bind c (fun _ => f))
  (at level 61, right associativity) : prs_scope.
Open Scope prs_scope.

(** ** Python list primitives *)

(** [range(n)] as bucket indices. *)
Definition range (n : Z) : list nat := seq 0 (Z.to_nat n).

(** [l[-1]] *)
Definition list_top {A} (l : list A) : option A :=
  match rev l with
  | [] => None
  | x :: _ => Some x
  end.

(** [l.pop()]: the list without its last element, and that element. *)
Definition list_pop {A} (l : list A) : option (list A * A) :=
  match rev l with
  | [] => None
  | x :: l' => Some (rev l', x)
  end.

(** [l[i] = v] for an index in range. *)
Fixpoint list_set {A} (i : nat) (v : A) (l : list A) : list A :=
  match l, i with
  | [], _ => []
  | _ :: l', O => v :: l'
  | x :: l', S i' => x :: list_set i' v l'
  end.

(** ** Internal row *)

Module PRSRow.
Section Row.
Context {T : Type}.

Record t : Type := mk {
  k : Z;
  n : Z;
  buckets : list (list T);
  count : Z;
  top_priority_idx : option nat
}.

Definition set_buckets (bs : list (list T)) (r : t) : t :=
  mk (k r) (n r) bs (count r) (top_priority_idx r).
Definition set_count (c : Z) (r : t) : t :=
  mk (k r) (n r) (buckets r) c (top_priority_idx r).
Definition set_top (i : option nat) (r : t) : t :=
  mk (k r) (n r) (buckets r) (count r) i.

Definition is_full (r : t) : bool := k r <=? count r.
Definition is_empty (r : t) : bool := count r =? 0.

(** The scan of [_recompute_top_priority]: the first index of [idxs]
    whose bucket is non-empty. *)
Fixpoint first_occupied (bs : list (list T)) (idxs : list nat)
  : result (option nat) :=
  match idxs with
  | [] => Ok None
  | idx :: rest =>
      match nth_error bs idx with
      | None => Raise IndexError
      | Some [] => first_occupied bs rest
      | Some (_ :: _) => Ok (Some idx)
      end
  end.

Definition _recompute_top_priority : M t unit :=
  modify (set_top None) ;;;
  r <- get ;;
  top <- pure_result (first_occupied (buckets r) (range (n r))) ;;
  modify (set_top top).

(** [PRSRow(k, n)]: the dataclass constructor with the default
    [buckets], [count] and [top_priority_idx], followed by
    [__post_init__]. *)
Definition new (k0 n0 : Z) : result t :=
  if k0 <=? 0 then Raise ValueError
  else if n0 <=? 0 then Raise ValueError
  else
    let r := mk k0 n0 (map (fun _ => []) (range n0)) 0 None in
    match _recompute_top_priority r with
    | (Ok _, r') => Ok r'
    | (Raise e, _) => Raise e
    end.

Definition push (item : T) (priority : Z) : M t unit :=
  r <- get ;;
  if negb ((1 <=? priority) && (priority <=? n r)) then raise PriorityError
  else if is_full r then raise RowFullError
  else
    let idx := Z.to_nat (priority - 1) in
    match nth_error (buckets r) idx with
    | None => raise IndexError
    | Some bucket =>
        modify (set_buckets (list_set idx (bucket ++ [item]) (buckets r))) ;;;
        modify (fun r => set_count (count r + 1) r) ;;;
        r <- get ;;
        match top_priority_idx r with
        | None => modify (set_top (Some idx))
        | Some top =>
            if (idx <? top)%nat then modify (set_top (Some idx)) else ret tt
        end
    end.

Definition peek : M t T :=
  r <- get ;;
  if is_empty r then raise EmptyError
  else
    match top_priority_idx r with
    | None => _recompute_top_priority
    | Some _ => ret tt
    end ;;;
    r <- get ;;
    match top_priority_idx r with
    | None => raise AssertionError
    | Some top =>
        match nth_error (buckets r) top with
        | None => raise IndexError
        | Some bucket =>
            match list_top bucket with
            | None => raise IndexError
            | Some item => ret item
            end
        end
    end.

(** [bucket] aliases [self.buckets[top]]: [bucket.pop()] updates the
    row's bucket in place. *)
Definition pop : M t T :=
  r <- get ;;
  if is_empty r then raise EmptyError
  else
    match top_priority_idx r with
    | None => _recompute_top_priority
    | Some _ => ret tt
    end ;;;
    r <- get ;;
    match top_priority_idx r with
    | None => raise AssertionError
    | Some top =>
        match nth_error (buckets r) top with
        | None => raise IndexError
        | Some bucket =>
            match list_pop bucket with
            | None => raise IndexError
            | Some (bucket', item) =>
                modify (set_buckets (list_set top bucket' (buckets r))) ;;;
                modify (fun r => set_count (count r - 1) r) ;;;
                match bucket' with
                | [] => _recompute_top_priority
                | _ :: _ => ret tt
                end ;;;
                ret item
            end
        end
    end.

(** The loop of [tolist]: [out.extend(reversed(self.buckets[idx]))]. *)
Fixpoint tolist_loop (bs : list (list T)) (idxs : list nat) (out : list T)
  : result (list T) :=
  match idxs with
  | [] => Ok out
  | idx :: rest =>
      match nth_error bs idx with
      | None => Raise IndexError
      | Some bucket => tolist_loop bs rest (out ++ rev bucket)
      end
  end.

Definition tolist : M t (list T) :=
  r <- get ;;
  pure_result (tolist_loop (buckets r) (range (n r)) []).

Definition len (r : t) : Z := count r.
End Row.
Arguments t : clear implicits.
End PRSRow.

(** ** Public stack of rows *)

Module PriorityRowStack.
Section Stack.
Context {T : Type}.

Record t : Type := mk {
  k : Z;
  n : Z;
  m : option Z;
  _rows : list (PRSRow.t T);
  _size : Z
}.

Definition set_rows (rs : list (PRSRow.t T)) (s : t) : t :=
  mk (k s) (n s) (m s) rs (_size s).
Definition set_size (z : Z) (s : t) : t :=
  mk (k s) (n s) (m s) (_rows s) z.

(** [PriorityRowStack(k, n, m)] *)
Definition new (k0 n0 : Z) (m0 : option Z) : result t :=
  if (k0 <=? 0) || (n0 <=? 0) then Raise ValueError
  else
    match m0 with
    | Some mv =>
        if mv <=? 0 then Raise ValueError else Ok (mk k0 n0 m0 [] 0)
    | None => Ok (mk k0 n0 m0 [] 0)
    end.

(** [not self._rows or self._rows[-1].is_full()] *)
Definition no_row_or_top_full (s : t) : bool :=
  match list_top (_rows s) with
  | None => true
  | Some r => PRSRow.is_full r
  end.

(** [self._rows and self._rows[-1].is_empty()] *)
Definition top_row_is_empty (s : t) : bool :=
  match list_top (_rows s) with
  | None => false
  | Some r => PRSRow.is_empty r
  end.

(** [self._rows.pop()] on a list known to be non-empty. *)
Definition drop_top_row : M t unit :=
  s <- get ;;
  match list_pop (_rows s) with
  | None => raise IndexError
  | Some (rs, _) => modify (set_rows rs)
  end.

(** [self._rows[-1].method(...)]: the method runs on the row object at
    the top, which is updated in place, also when the method raises. *)
Definition on_top_row {A} (c : M (PRSRow.t T) A) : M t A :=
  fun s =>
    match list_pop (_rows s) with
    | None => (Raise IndexError, s)
    | Some (rs, r) =>
        let (res, r') := c r in (res, set_rows (rs ++ [r']) s)
    end.

Definition _ensure_top_row : M t unit :=
  s <- get ;;
  if no_row_or_top_full s then
    if match m s with
       | None => false
       | Some mv =>
           (mv <=? Z.of_nat (length (_rows s))) && no_row_or_top_full s
       end
    then raise PRSError
    else
      row <- pure_result (PRSRow.new (k s) (n s)) ;;
      modify (set_rows (_rows s ++ [row]))
  else ret tt.

Definition push (item : T) (priority : Z) : M t unit :=
  _ensure_top_row ;;;
  on_top_row (PRSRow.push item priority) ;;;
  modify (fun s => set_size (_size s + 1) s).

(** [while self._rows and self._rows[-1].is_empty(): self._rows.pop()].
    Every iteration shortens [_rows], so [length _rows] iterations are
    enough; [prune_rows_exits] below shows that the loop condition is
    false in the state returned. *)
Fixpoint prune_loop (fuel : nat) : M t unit :=
  match fuel with
  | O => ret tt
  | S fuel' =>
      s <- get ;;
      if top_row_is_empty s then drop_top_row ;;; prune_loop fuel'
      else ret tt
  end.

Definition prune_rows : M t unit :=
  s <- get ;;
  prune_loop (length (_rows s)).

Definition peek : M t T :=
  s <- get ;;
  if _size s =? 0 then raise EmptyError
  else
    prune_rows ;;;
    s <- get ;;
    match _rows s with
    | [] => raise EmptyError
    | _ :: _ => on_top_row PRSRow.peek
    end.

Definition pop : M t T :=
  s <- get ;;
  if _size s =? 0 then raise EmptyError
  else
    prune_rows ;;;
    s <- get ;;
    match _rows s with
    | [] => raise EmptyError
    | _ :: _ =>
        item <- on_top_row PRSRow.pop ;;
        modify (fun s => set_size (_size s - 1) s) ;;;
        s <- get ;;
        (if top_row_is_empty s then drop_top_row else ret tt) ;;;
        ret item
    end.

Definition is_empty (s : t) : bool := _size s =? 0.
Definition size (s : t) : Z := _size s.
Definition rows_count (s : t) : Z := Z.of_nat (length (_rows s)).

(** The loop of [tolist] over [reversed(self._rows)]; [row.tolist()]
    leaves the row as it is. *)
Fixpoint tolist_loop (rs : list (PRSRow.t T)) (out : list T)
  : result (list T) :=
  match rs with
  | [] => Ok out
  | row :: rest =>
      match fst (PRSRow.tolist row) with
      | Raise e => Raise e
      | Ok l => tolist_loop rest (out ++ l)
      end
  end.

Definition tolist : M t (list T) :=
  s <- get ;;
  pure_result (tolist_loop (rev (_rows s)) []).

Definition len (s : t) : Z := size s.
End Stack.
Arguments t : clear implicits.
End PriorityRowStack.

Module Row := PRSRow.
Module PRS := PriorityRowStack.

(** * Invariants, runs and the retrieval rule: definitions *)

(** ** Rows *)

(** The number of items held in the buckets: [sum(len(b) for b in buckets)]. *)
Definition sum_lengths {T} (bs : list (list T)) : nat :=
  list_sum (map (@length T) bs).

(** The index of the first non-empty bucket, or none. *)
Fixpoint lowest_occupied {T} (bs : list (list T)) : option nat :=
  match bs with
  | [] => None
  | [] :: bs' => option_map S (lowest_occupied bs')
  | (_ :: _) :: _ => Some O
  end.

(** The items of the buckets in the order of [PRSRow.tolist]. *)
Definition pop_order {T} (bs : list (list T)) : list T :=
  concat (map (@rev T) bs).

(** The representation invariant of a row. *)
Record row_ok {T} (r : Row.t T) : Prop := {
  ok_k : 0 < Row.k r;
  ok_n : 0 < Row.n r;
  ok_len : length (Row.buckets r) = Z.to_nat (Row.n r);
  ok_count : Row.count r = Z.of_nat (sum_lengths (Row.buckets r));
  ok_cap : Row.count r <= Row.k r;
  ok_top : Row.top_priority_idx r = lowest_occupied (Row.buckets r)
}.

(** The row [PRSRow(k, n)] builds. *)
Definition empty_row {T} (k n : Z) : Row.t T :=
  Row.mk k n (map (fun _ => []) (range n)) 0 None.

(** The row an accepted push leaves. *)
Definition pushed {T} (r : Row.t T) (x : T) (idx : nat) (b : list T)
  : Row.t T :=
  let bs := list_set idx (b ++ [x]) (Row.buckets r) in
  Row.mk (Row.k r) (Row.n r) bs (Row.count r + 1) (lowest_occupied bs).

(** The row a successful pop leaves. *)
Definition popped {T} (r : Row.t T) (idx : nat) (b : list T) : Row.t T :=
  let bs := list_set idx b (Row.buckets r) in
  Row.mk (Row.k r) (Row.n r) bs (Row.count r - 1) (lowest_occupied bs).

(** ** The stack of rows *)

(** [sum(row.count for row in rows)] *)
Definition rows_total {T} (rs : list (Row.t T)) : Z :=
  fold_right (fun r acc => Row.count r + acc) 0 rs.

(** The items of all rows in the order of [PriorityRowStack.tolist]. *)
Definition stack_order {T} (rs : list (Row.t T)) : list T :=
  concat (map (fun r => pop_order (Row.buckets r)) (rev rs)).

(** A row of the stack [s]: a well-formed row with the stack's [k], [n]. *)
Definition row_of {T} (s : PRS.t T) (r : Row.t T) : Prop :=
  row_ok r /\ Row.k r = PRS.k s /\ Row.n r = PRS.n s.

(** The representation invariant of the stack. *)
Record prs_ok {T} (s : PRS.t T) : Prop := {
  inv_k : 0 < PRS.k s;
  inv_n : 0 < PRS.n s;
  inv_m : forall mv, PRS.m s = Some mv ->
            0 < mv /\ Z.of_nat (length (PRS._rows s)) <= mv;
  inv_rows : Forall (row_of s) (PRS._rows s);
  inv_size : PRS._size s = rows_total (PRS._rows s);
  inv_full : forall rs r, PRS._rows s = rs ++ [r] ->
               Forall (fun r' => Row.count r' = PRS.k s) rs
}.

(** The state [_ensure_top_row] refuses: a row is needed and [m] rows
    are already open. *)
Definition at_row_limit {T} (s : PRS.t T) : bool :=
  PRS.no_row_or_top_full s &&
  match PRS.m s with
  | None => false
  | Some mv => mv <=? Z.of_nat (length (PRS._rows s))
  end.

(** The state a successful [_ensure_top_row] leaves. *)
Definition opened {T} (s : PRS.t T) : PRS.t T :=
  if PRS.no_row_or_top_full s
  then PRS.set_rows (PRS._rows s ++ [empty_row (PRS.k s) (PRS.n s)]) s
  else s.

(** The state an accepted push leaves: the top row of [opened s]
    replaced, and the size incremented. *)
Definition pushed_stack {T} (s : PRS.t T) (rs : list (Row.t T))
  (r' : Row.t T) : PRS.t T :=
  PRS.mk (PRS.k s) (PRS.n s) (PRS.m s) (rs ++ [r']) (PRS._size s + 1).

(** What pruning does to a well-formed stack: at most the top row goes. *)
Definition pruned {T} (s : PRS.t T) : PRS.t T :=
  match list_pop (PRS._rows s) with
  | Some (rs, r) => if Row.is_empty r then PRS.set_rows rs s else s
  | None => s
  end.

(** The state a successful pop leaves: the top row of [pruned s]
    replaced by what the row's pop left, or removed if that is empty. *)
Definition popped_stack {T} (s : PRS.t T) (rs : list (Row.t T))
  (r' : Row.t T) : PRS.t T :=
  PRS.mk (PRS.k s) (PRS.n s) (PRS.m s)
         (if Row.is_empty r' then rs else rs ++ [r'])
         (PRS._size s - 1).

(** ** Runs of the public operations *)

(** The calls a client can make that change a stack.  ([tolist],
    [size], [rows_count] and [is_empty] leave it as it is.) *)
Inductive op (T : Type) : Type :=
| Push (item : T) (priority : Z)
| Pop
| Peek.
Arguments Push {T} item priority.
Arguments Pop {T}.
Arguments Peek {T}.

(** One call: the value returned ([None] for [push]) or the exception. *)
Definition exec {T} (o : op T) : M (PRS.t T) (option T) :=
  match o with
  | Push x p => PRS.push x p ;;; ret None
  | Pop => x <- PRS.pop ;; ret (Some x)
  | Peek => x <- PRS.peek ;; ret (Some x)
  end.

(** A sequence of calls, with the log of calls and results. *)
Fixpoint run {T} (ops : list (op T)) (s : PRS.t T)
  : list (op T * result (option T)) * PRS.t T :=
  match ops with
  | [] => ([], s)
  | o :: ops' =>
      let (res, s') := exec o s in
      let (log, s'') := run ops' s' in
      ((o, res) :: log, s'')
  end.

(** The states a client can bring a stack to: built by the constructor,
    then any calls, whether they return or raise. *)
Inductive reachable {T} : PRS.t T -> Prop :=
| reach_new k n m s : PRS.new k n m = Ok s -> reachable s
| reach_step o s : reachable s -> reachable (snd (exec o s)).

Definition accepted_push {T} (e : op T * result (option T)) : bool :=
  match e with (Push _ _, Ok _) => true | _ => false end.

Definition successful_pop {T} (e : op T * result (option T)) : bool :=
  match e with (Pop, Ok _) => true | _ => false end.

Definition count_log {T} (f : op T * result (option T) -> bool)
  (log : list (op T * result (option T))) : Z :=
  Z.of_nat (length (filter f log)).

(** [while not s.is_empty(): out.append(s.pop())]; [None] when [fuel]
    iterations were not enough. *)
Fixpoint pop_all {T} (fuel : nat) (s : PRS.t T)
  : option (result (list T) * PRS.t T) :=
  if PRS.is_empty s then Some (Ok [], s)
  else
    match fuel with
    | O => None
    | S fuel' =>
        match PRS.pop s with
        | (Raise e, s') => Some (Raise e, s')
        | (Ok x, s') =>
            match pop_all fuel' s' with
            | Some (Ok l, s'') => Some (Ok (x :: l), s'')
            | other => other
            end
        end
    end.

(** What a call does to [_size]. *)
Definition size_change {T} (e : op T * result (option T)) : Z :=
  if accepted_push e then 1 else if successful_pop e then -1 else 0.

(** ** The retrieval rule of a row *)

(** The contents of a row as the retrieval rule speaks of them: the
    items currently in the row with the priority each was pushed at, in
    the order they were pushed (oldest first).  These definitions follow
    the wording of the rule, not the code; [row_refines] compares them
    with [PRSRow]. *)
Module RowSpec.
Section Spec.
Context {T : Type}.

Definition entry : Type := T * Z.

(** The numerically lowest priority value present. *)
Fixpoint lowest_priority (l : list entry) : option Z :=
  match l with
  | [] => None
  | e :: l' =>
      match lowest_priority l' with
      | None => Some (snd e)
      | Some q => Some (Z.min (snd e) q)
      end
  end.

(** The items holding priority [q], oldest first. *)
Definition holding (q : Z) (l : list entry) : list T :=
  map fst (filter (fun e => snd e =? q) l).

(** The most recently pushed item among those holding the lowest
    priority present. *)
Definition next (l : list entry) : option T :=
  match lowest_priority l with
  | None => None
  | Some q => list_top (holding q l)
  end.

(** The contents without the most recently pushed entry of priority [q]. *)
Fixpoint remove_latest (q : Z) (l : list entry) : list entry :=
  match l with
  | [] => []
  | e :: l' =>
      if existsb (fun e' => snd e' =? q) l' then e :: remove_latest q l'
      else if snd e =? q then l'
      else e :: l'
  end.

Definition remove_next (l : list entry) : list entry :=
  match lowest_priority l with
  | None => l
  | Some q => remove_latest q l
  end.

(** A push is accepted when the priority is in [1, n] and the row
    holds fewer than [k] items. *)
Definition push (k n : Z) (x : T) (p : Z) (l : list entry) : list entry :=
  if (1 <=? p) && (p <=? n) && (Z.of_nat (length l) <? k)
  then l ++ [(x, p)]
  else l.
End Spec.
End RowSpec.

(** The calls on a row. *)
Inductive row_op (T : Type) : Type :=
| RPush (item : T) (priority : Z)
| RPop
| RPeek.
Arguments RPush {T} item priority.
Arguments RPop {T}.
Arguments RPeek {T}.

Definition row_exec {T} (o : row_op T) : M (Row.t T) (option T) :=
  match o with
  | RPush x p => Row.push x p ;;; ret None
  | RPop => x <- Row.pop ;; ret (Some x)
  | RPeek => x <- Row.peek ;; ret (Some x)
  end.

(** The row after a sequence of calls, whether they returned or raised. *)
Fixpoint row_run {T} (ops : list (row_op T)) (r : Row.t T) : Row.t T :=
  match ops with
  | [] => r
  | o :: ops' => row_run ops' (snd (row_exec o r))
  end.

(** The contents after the same calls, by the rule. *)
Definition spec_step {T} (k n : Z) (o : row_op T)
  (l : list (RowSpec.entry (T:=T))) : list RowSpec.entry :=
  match o with
  | RPush x p => RowSpec.push k n x p l
  | RPop => RowSpec.remove_next l
  | RPeek => l
  end.

Fixpoint spec_run {T} (k n : Z) (ops : list (row_op T))
  (l : list (RowSpec.entry (T:=T))) : list RowSpec.entry :=
  match ops with
  | [] => l
  | o :: ops' => spec_run k n ops' (spec_step k n o l)
  end.

(** What [peek] and [pop] of a row are to answer by the rule. *)
Definition expected {T} (x : option T) : result T :=
  match x with
  | Some x => Ok x
  | None => Raise EmptyError
  end.

(** Bucket [i] holds the items of priority [i + 1]. *)
Definition bucket_of {T} (l : list (RowSpec.entry (T:=T))) (i : nat) : list T :=
  RowSpec.holding (Z.of_nat i + 1) l.

(** The row [r], of capacity [k] with [n] priorities, holds the contents [l]. *)
Record models {T} (k n : Z) (r : Row.t T) (l : list RowSpec.entry) : Prop := {
  m_ok : row_ok r;
  m_k : Row.k r = k;
  m_n : Row.n r = n;
  m_buckets : Row.buckets r = map (bucket_of l) (range n);
  m_count : Row.count r = Z.of_nat (length l);
  m_prio : Forall (fun e => 1 <= snd e <= n) l
}.

(** ** Scenarios *)

Open Scope string_scope.
Open Scope list_scope.
Open Scope Z_scope.

(** A fresh stack, then the calls [ops]: the result of every call, in
    order ([Ok None] for an accepted push). *)
Definition results_of {T} (k n : Z) (m : option Z) (ops : list (op T))
  : result (list (result (option T))) :=
  match PRS.new k n m with
  | Ok s0 => Ok (map snd (fst (run ops s0)))
  | Raise e => Raise e
  end.

(** The state a fresh stack is in after the calls [ops]. *)
Definition state_after {T} (k n : Z) (m : option Z) (ops : list (op T))
  : result (PRS.t T) :=
  match PRS.new k n m with
  | Ok s0 => Ok (snd (run ops s0))
  | Raise e => Raise e
  end.

(** A state used to instantiate the theorems: two rows, the older one full. *)
Definition demo_ops : list (op string) :=
  [Push "a" 2; Push "b" 1; Push "c" 3; Push "d" 2; Push "e" 1; Pop].

Definition demo : PRS.t string := snd (run demo_ops (PRS.mk 3 3 None [] 0)).

(** A state with a full row below an empty one: a push with a bad
    priority on a stack whose only row is full. *)
Definition demo_pruning : PRS.t string :=
  snd (run [Push "a" 1; Push "b" 1; Push "bad" 0] (PRS.mk 2 1 None [] 0)).

(** ** Further properties: definitions *)

(** The exceptions a row's own methods raise on purpose. *)
Definition row_error (e : exn_class) : Prop :=
  e = PriorityError \/ e = RowFullError \/ e = EmptyError.

(** The order of [PRSRow.tolist], by the contents: priority after
    priority from 1 to [n], and within a priority the newest first. *)
Definition by_priority {T} (n : Z) (l : list (RowSpec.entry (T:=T))) : list T :=
  concat (map (fun i => rev (RowSpec.holding (Z.of_nat i + 1) l)) (range n)).

(** The items of the accepted pushes of a log, in order. *)
Definition accepted_items {T} (log : list (op T * result (option T)))
  : list T :=
  flat_map (fun e => match e with (Push x _, Ok _) => [x] | _ => [] end) log.

(** The items returned by the pops of a log, in order. *)
Definition popped_items {T} (log : list (op T * result (option T)))
  : list T :=
  flat_map (fun e => match e with (Pop, Ok (Some x)) => [x] | _ => [] end) log.

(** A push at priority [p] will put its item in front of everything: a
    new row will be opened for it, or nothing in the top row has a
    smaller priority index than [p - 1]. *)
Definition lands_on_top {T} (p : Z) (s : PRS.t T) : bool :=
  match list_top (PRS._rows s) with
  | None => true
  | Some r =>
      Row.is_full r ||
      match Row.top_priority_idx r with
      | None => true
      | Some i => (Z.to_nat (p - 1) <=? i)%nat
      end
  end.

(** ** The schedulers of [examples/large_interactive.py] *)

(** A job: the dicts built by [generate_jobs] and [prompt_user_jobs],
    with their three keys. *)
Record Job : Type := {
  job_id : string;
  job_priority : Z;
  job_arrival_idx : Z
}.

(** [for job in jobs: prs.push(job, job["priority"])]; an exception
    ends the loop and is passed on. *)
Fixpoint push_all (jobs : list Job) : M (PRS.t Job) unit :=
  match jobs with
  | [] => ret tt
  | job :: jobs' => PRS.push job (job_priority job) ;;; push_all jobs'
  end.

(** [run_prs(jobs, k, n, m)]: the completion order it returns, or the
    exception it lets through.  The elapsed wall-clock time, the second
    component of its result, is not modelled.  The [while] loop pops
    once per iteration, so [len(jobs)] iterations are allowed; [None]
    would mean they were not enough. *)
Definition run_prs (jobs : list Job) (k n : Z) (m : option Z)
  : option (result (list Job)) :=
  match PRS.new k n m with
  | Raise e => Some (Raise e)
  | Ok prs =>
      match push_all jobs prs with
      | (Raise e, _) => Some (Raise e)
      | (Ok _, prs') => option_map fst (pop_all (length jobs) prs')
      end
  end.

(** The [while st: out.append(st.pop())] loop of [run_stack]. *)
Fixpoint stack_drain {A} (fuel : nat) (st out : list A) : option (list A) :=
  match list_pop st with
  | None => Some out
  | Some (st', x) =>
      match fuel with
      | O => None
      | S fuel' => stack_drain fuel' st' (out ++ [x])
      end
  end.

(** [run_stack(jobs)]: the completion order (the elapsed time is not
    modelled). *)
Definition run_stack (jobs : list Job) : option (list Job) :=
  let st := fold_left (fun st job => st ++ [job]) jobs [] in
  stack_drain (length jobs) st [].

(** The job with the priority it is pushed at. *)
Definition job_entry (job : Job) : RowSpec.entry (T:=Job) :=
  (job, job_priority job).

(** The items [g] with the priority each is pushed at. *)
Definition entries {T} (pr : T -> Z) (g : list T) : list (RowSpec.entry (T:=T)) :=
  map (fun x => (x, pr x)) g.

(** The rows hold the groups of items [groups], one group a row, oldest
    first. *)
Definition rows_hold {T} (pr : T -> Z) (k n : Z)
  (rows : list (Row.t T)) (groups : list (list T)) : Prop :=
  Forall2 (fun r g => models k n r (entries pr g)) rows groups.

(** * Verification *)

(** ** Facts on the list primitives *)

Section ListFacts.
Context {A : Type}.

Lemma snoc_cases (l : list A) : l = [] \/ exists l' x, l = l' ++ [x].
Proof.
  induction l as [|x l IH] using rev_ind; [now left | right; eauto].
Qed.

Lemma list_top_snoc (l : list A) (x : A) : list_top (l ++ [x]) = Some x.
Proof. unfold list_top. now rewrite rev_unit. Qed.

Lemma list_pop_snoc (l : list A) (x : A) : list_pop (l ++ [x]) = Some (l, x).
Proof. unfold list_pop. now rewrite rev_unit, rev_involutive. Qed.

Lemma list_top_None (l : list A) : list_top l = None -> l = [].
Proof.
  destruct (snoc_cases l) as [-> | (l' & x & ->)]; [easy|].
  now rewrite list_top_snoc.
Qed.

Lemma list_set_length (i : nat) (v : A) (l : list A) :
  length (list_set i v l) = length l.
Proof.
  revert i; induction l as [|x l IH]; intros [|i]; simpl; auto.
Qed.

Lemma list_set_same (i : nat) (v : A) (l : list A) :
  (i < length l)%nat -> nth_error (list_set i v l) i = Some v.
Proof.
  revert i; induction l as [|x l IH]; intros [|i]; simpl; intros H;
    try lia; auto.
  apply IH; lia.
Qed.

Lemma list_set_other (i j : nat) (v : A) (l : list A) :
  i <> j -> nth_error (list_set i v l) j = nth_error l j.
Proof.
  revert i j; induction l as [|x l IH]; intros [|i] [|j] H; simpl; auto.
  congruence.
Qed.
End ListFacts.

(** ** Rows *)

Section BucketFacts.
Context {T : Type}.
Implicit Types (bs pre suf : list (list T)) (b : list T).

Lemma first_occupied_scan pre suf :
  Row.first_occupied (pre ++ suf) (seq (length pre) (length suf))
  = Ok (option_map (Nat.add (length pre)) (lowest_occupied suf)).
Proof.
  revert pre; induction suf as [|b suf IH]; intros pre; simpl; [easy|].
  rewrite nth_error_app2, Nat.sub_diag by lia; simpl.
  destruct b as [|x b]; simpl.
  - replace (pre ++ [] :: suf) with ((pre ++ [[]]) ++ suf)
      by now rewrite <- app_assoc.
    replace (S (length pre)) with (length (pre ++ [[]] : list (list T)))
      by (rewrite length_app; simpl; lia).
    rewrite IH, length_app; simpl.
    destruct (lowest_occupied suf); simpl; f_equal; f_equal; lia.
  - f_equal; f_equal; lia.
Qed.

Lemma first_occupied_range bs (n : Z) :
  length bs = Z.to_nat n ->
  Row.first_occupied bs (range n) = Ok (lowest_occupied bs).
Proof.
  intros H. unfold range. rewrite <- H.
  generalize (first_occupied_scan [] bs); simpl; intros ->.
  now destruct (lowest_occupied bs).
Qed.

Lemma tolist_loop_scan pre suf (out : list T) :
  Row.tolist_loop (pre ++ suf) (seq (length pre) (length suf)) out
  = Ok (out ++ pop_order suf).
Proof.
  revert pre out; induction suf as [|b suf IH]; intros pre out; simpl.
  - now rewrite app_nil_r.
  - rewrite nth_error_app2, Nat.sub_diag by lia; simpl.
    replace (pre ++ b :: suf) with ((pre ++ [b]) ++ suf)
      by now rewrite <- app_assoc.
    replace (S (length pre)) with (length (pre ++ [b]))
      by (rewrite length_app; simpl; lia).
    rewrite IH. unfold pop_order; simpl. now rewrite app_assoc.
Qed.

Lemma tolist_loop_range bs (n : Z) :
  length bs = Z.to_nat n ->
  Row.tolist_loop bs (range n) [] = Ok (pop_order bs).
Proof.
  intros H. unfold range. rewrite <- H.
  exact (tolist_loop_scan [] bs []).
Qed.

Lemma lowest_occupied_None bs :
  lowest_occupied bs = None <-> sum_lengths bs = O.
Proof.
  unfold sum_lengths.
  induction bs as [|[|x b] bs IH]; simpl; [easy| |easy].
  destruct (lowest_occupied bs); simpl in *; split; intros H;
    try easy; apply IH in H; easy.
Qed.

Lemma lowest_occupied_Some bs (i : nat) :
  lowest_occupied bs = Some i ->
  exists b x, nth_error bs i = Some (b ++ [x]).
Proof.
  revert i; induction bs as [|[|y b] bs IH]; intros i; simpl; [easy| |].
  - destruct (lowest_occupied bs) as [j|]; simpl; [|easy].
    intros [= <-]. simpl. now apply IH.
  - intros [= <-]; simpl.
    destruct (snoc_cases (y :: b)) as [E | (b' & x & E)]; [easy|].
    rewrite E; eauto.
Qed.

Lemma sum_lengths_set bs (i : nat) b b' :
  nth_error bs i = Some b ->
  (sum_lengths (list_set i b' bs) + length b
   = sum_lengths bs + length b')%nat.
Proof.
  unfold sum_lengths.
  revert i; induction bs as [|c bs IH]; intros [|i]; simpl; try easy.
  - intros [= ->]. lia.
  - intros H. specialize (IH _ H). lia.
Qed.

(** Appending to bucket [i] moves the lowest occupied index the way
    [PRSRow.push] updates the cache. *)
Lemma lowest_occupied_append bs (i : nat) b (x : T) :
  nth_error bs i = Some b ->
  lowest_occupied (list_set i (b ++ [x]) bs)
  = match lowest_occupied bs with
    | None => Some i
    | Some top => if (i <? top)%nat then Some i else Some top
    end.
Proof.
  revert i; induction bs as [|c bs IH]; intros [|i]; simpl; try easy.
  - intros [= ->]. destruct b; simpl; [|easy].
    now destruct (lowest_occupied bs).
  - intros H. destruct c; [|easy].
    rewrite (IH _ H).
    destruct (lowest_occupied bs) as [top|]; simpl; [|easy].
    change (S i <? S top)%nat with (i <? top)%nat.
    now destruct (i <? top)%nat.
Qed.

(** Removing the last item of the lowest occupied bucket removes the
    head of the pop order. *)
Lemma pop_order_lowest bs (i : nat) b (x : T) :
  lowest_occupied bs = Some i ->
  nth_error bs i = Some (b ++ [x]) ->
  pop_order bs = x :: pop_order (list_set i b bs).
Proof.
  unfold pop_order.
  revert i; induction bs as [|c bs IH]; intros i; [easy|].
  destruct c as [|y c].
  - simpl. destruct (lowest_occupied bs) as [j|] eqn:E; simpl; [|easy].
    intros [= <-]; simpl. intros H. now apply IH.
  - cbn [lowest_occupied nth_error]. intros [= <-] [= H].
    cbn [list_set map concat]. now rewrite H, rev_unit.
Qed.

Lemma pop_order_length bs : length (pop_order bs) = sum_lengths bs.
Proof.
  unfold pop_order, sum_lengths.
  induction bs as [|b bs IH]; simpl; [easy|].
  now rewrite length_app, length_rev, IH.
Qed.
End BucketFacts.

Section RowFacts.
Context {T : Type}.
Implicit Types (r : Row.t T) (x : T) (p : Z).

Lemma lowest_occupied_shrink (bs : list (list T)) (i : nat) b y x :
  lowest_occupied bs = Some i ->
  nth_error bs i = Some ((y :: b) ++ [x]) ->
  lowest_occupied (list_set i (y :: b) bs) = Some i.
Proof.
  revert i; induction bs as [|c bs IH]; intros i; [easy|].
  destruct c as [|z c].
  - simpl. destruct (lowest_occupied bs) as [j|] eqn:E; simpl; [|easy].
    intros [= <-]; simpl. intros H. now rewrite (IH _ eq_refl H).
  - cbn [lowest_occupied]. now intros [= <-].
Qed.

Lemma lowest_occupied_fresh (idxs : list nat) :
  lowest_occupied (map (fun _ => @nil T) idxs) = None.
Proof. induction idxs as [|i idxs IH]; simpl; [easy | now rewrite IH]. Qed.

Lemma sum_lengths_fresh (idxs : list nat) :
  sum_lengths (map (fun _ => @nil T) idxs) = O.
Proof. unfold sum_lengths. induction idxs; simpl; auto. Qed.

Lemma recompute_spec r :
  length (Row.buckets r) = Z.to_nat (Row.n r) ->
  Row._recompute_top_priority r
  = (Ok tt, Row.set_top (lowest_occupied (Row.buckets r)) r).
Proof.
  intros H. unfold Row._recompute_top_priority, bind, modify, get,
    pure_result; simpl.
  now rewrite (first_occupied_range _ _ H).
Qed.

Lemma empty_row_ok (k n : Z) :
  0 < k -> 0 < n -> row_ok (empty_row (T:=T) k n).
Proof.
  intros Hk Hn. split; simpl; try lia.
  - unfold range. now rewrite length_map, length_seq.
  - now rewrite sum_lengths_fresh.
  - now rewrite lowest_occupied_fresh.
Qed.

Lemma new_spec (k n : Z) :
  Row.new (T:=T) k n
  = if (k <=? 0) || (n <=? 0) then Raise ValueError
    else Ok (empty_row k n).
Proof.
  unfold Row.new.
  destruct (k <=? 0) eqn:Hk; [easy|].
  destruct (n <=? 0) eqn:Hn; [easy|]. simpl.
  rewrite recompute_spec; simpl.
  - now rewrite lowest_occupied_fresh.
  - unfold range. now rewrite length_map, length_seq.
Qed.

Lemma push_bad_priority r x p :
  ~ (1 <= p <= Row.n r) -> Row.push x p r = (Raise PriorityError, r).
Proof.
  intros H. unfold Row.push, bind, get; simpl.
  destruct ((1 <=? p) && (p <=? Row.n r)) eqn:E; [|easy].
  apply andb_true_iff in E. lia.
Qed.

Lemma push_full r x p :
  1 <= p <= Row.n r -> Row.k r <= Row.count r ->
  Row.push x p r = (Raise RowFullError, r).
Proof.
  intros H Hf. unfold Row.push, bind, get, Row.is_full; simpl.
  replace ((1 <=? p) && (p <=? Row.n r)) with true
    by (symmetry; apply andb_true_iff; lia).
  simpl. now replace (Row.k r <=? Row.count r) with true by lia.
Qed.

Lemma push_accepts r x p :
  row_ok r -> 1 <= p <= Row.n r -> Row.count r < Row.k r ->
  exists b,
    nth_error (Row.buckets r) (Z.to_nat (p - 1)) = Some b /\
    Row.push x p r = (Ok tt, pushed r x (Z.to_nat (p - 1)) b) /\
    row_ok (pushed r x (Z.to_nat (p - 1)) b).
Proof.
  intros Hr Hp Hc. destruct Hr as [Hk Hn Hlen Hcount Hcap Htop].
  destruct r as [k n bs c top0]; simpl in *.
  set (idx := Z.to_nat (p - 1)).
  destruct (nth_error bs idx) as [b|] eqn:Hb.
  2:{ apply nth_error_None in Hb. lia. }
  exists b. split; [easy|]. split.
  - unfold Row.push, bind, get, modify, Row.is_full; simpl.
    replace ((1 <=? p) && (p <=? n)) with true
      by (symmetry; apply andb_true_iff; lia).
    simpl. replace (k <=? c) with false by lia.
    fold idx. rewrite Hb. simpl. unfold pushed.
    cbv zeta; cbn [Row.buckets Row.k Row.n Row.count].
    rewrite (lowest_occupied_append _ _ _ x Hb), <- Htop.
    destruct top0 as [top|]; simpl; [|easy].
    now destruct (idx <? top)%nat.
  - split; simpl; try lia.
    + now rewrite list_set_length.
    + pose proof (sum_lengths_set _ _ _ (b ++ [x]) Hb) as E.
      rewrite length_app in E; simpl in E. lia.
    + reflexivity.
Qed.

Lemma pop_empty r :
  Row.count r = 0 ->
  Row.pop r = (Raise EmptyError, r) /\ Row.peek r = (Raise EmptyError, r).
Proof.
  intros H. unfold Row.pop, Row.peek, bind, get, Row.is_empty; simpl.
  now rewrite H.
Qed.

Lemma pop_nonempty r :
  row_ok r -> Row.count r <> 0 ->
  exists i b x,
    lowest_occupied (Row.buckets r) = Some i /\
    nth_error (Row.buckets r) i = Some (b ++ [x]) /\
    Row.peek r = (Ok x, r) /\
    Row.pop r = (Ok x, popped r i b) /\
    row_ok (popped r i b).
Proof.
  intros Hr Hc. destruct Hr as [Hk Hn Hlen Hcount Hcap Htop].
  destruct r as [k n bs c top0]; simpl in *.
  destruct (lowest_occupied bs) as [i|] eqn:Hlow.
  2:{ apply lowest_occupied_None in Hlow. lia. }
  destruct (lowest_occupied_Some _ _ Hlow) as (b & x & Hb).
  exists i, b, x. repeat split; simpl; try lia; auto.
  - unfold Row.peek, bind, get, ret, Row.is_empty; simpl.
    replace (c =? 0) with false by lia.
    rewrite Htop; simpl. now rewrite Hb, list_top_snoc.
  - unfold Row.pop, bind, get, ret, modify, Row.is_empty; simpl.
    replace (c =? 0) with false by lia.
    rewrite Htop; simpl. rewrite Hb, list_pop_snoc; simpl.
    destruct b as [|y b]; simpl.
    + rewrite recompute_spec; simpl; [easy|].
      now rewrite list_set_length.
    + unfold popped; simpl.
      now rewrite (lowest_occupied_shrink _ _ _ _ _ Hlow Hb).
  - now rewrite list_set_length.
  - pose proof (sum_lengths_set _ _ _ b Hb) as E.
    rewrite length_app in E; simpl in E. lia.
Qed.

Lemma tolist_spec r :
  length (Row.buckets r) = Z.to_nat (Row.n r) ->
  Row.tolist r = (Ok (pop_order (Row.buckets r)), r).
Proof.
  intros H. unfold Row.tolist, bind, get, pure_result; simpl.
  now rewrite (tolist_loop_range _ _ H).
Qed.

Lemma tolist_state r : snd (Row.tolist r) = r.
Proof. reflexivity. Qed.
End RowFacts.

(** ** The stack of rows *)

Section StackFacts.
Context {T : Type}.
Implicit Types (s : PRS.t T) (r : Row.t T) (rs : list (Row.t T)).

Lemma rows_total_app rs rs' :
  rows_total (rs ++ rs') = rows_total rs + rows_total rs'.
Proof. induction rs as [|r rs IH]; simpl; lia. Qed.

Lemma rows_total_snoc rs r :
  rows_total (rs ++ [r]) = rows_total rs + Row.count r.
Proof. rewrite rows_total_app; simpl; lia. Qed.

Lemma rows_total_nonneg rs :
  Forall (fun r => 0 <= Row.count r) rs -> 0 <= rows_total rs.
Proof. induction 1; simpl; lia. Qed.

Lemma stack_order_snoc rs r :
  stack_order (rs ++ [r]) = pop_order (Row.buckets r) ++ stack_order rs.
Proof. unfold stack_order. now rewrite rev_unit. Qed.

Lemma set_rows_same s : PRS.set_rows (PRS._rows s) s = s.
Proof. now destruct s. Qed.

Lemma new_spec_stack (k n : Z) (m : option Z) :
  PRS.new (T:=T) k n m
  = if (k <=? 0) || (n <=? 0) || match m with
                                  | Some mv => mv <=? 0
                                  | None => false
                                  end
    then Raise ValueError
    else Ok (PRS.mk k n m [] 0).
Proof.
  unfold PRS.new. destruct ((k <=? 0) || (n <=? 0)); simpl; [easy|].
  destruct m as [mv|]; [|easy]. now destruct (mv <=? 0).
Qed.

Lemma new_ok (k n : Z) (m : option Z) s :
  PRS.new k n m = Ok s -> prs_ok s /\ s = PRS.mk k n m [] 0.
Proof.
  rewrite new_spec_stack.
  destruct (k <=? 0) eqn:Hk; [easy|].
  destruct (n <=? 0) eqn:Hn; [easy|]. simpl.
  destruct m as [mv|].
  - destruct (mv <=? 0) eqn:Hm; [easy|]. intros [= <-]. split; [|easy].
    split; simpl; try lia; auto.
    + intros ? [= <-]. lia.
    + intros [|] ? ?; discriminate.
  - intros [= <-]. split; [|easy].
    split; simpl; try lia; auto; try easy.
    intros [|] ? ?; discriminate.
Qed.

Lemma row_of_count s r : row_of s r -> 0 <= Row.count r <= PRS.k s.
Proof.
  intros ([] & Hk & _). lia.
Qed.

Lemma ensure_spec s :
  prs_ok s ->
  PRS._ensure_top_row s
  = if at_row_limit s then (Raise PRSError, s) else (Ok tt, opened s).
Proof.
  intros Hs. unfold PRS._ensure_top_row, at_row_limit, opened, bind, get,
    raise, ret; simpl.
  destruct (PRS.no_row_or_top_full s) eqn:E; simpl; [|easy].
  destruct (PRS.m s) as [mv|] eqn:Hm.
  - rewrite andb_true_r.
    destruct (mv <=? Z.of_nat (length (PRS._rows s))); [easy|].
    unfold pure_result, modify. rewrite new_spec.
    replace ((PRS.k s <=? 0) || (PRS.n s <=? 0)) with false; [easy|].
    destruct Hs. symmetry. apply orb_false_iff. lia.
  - unfold pure_result, modify. rewrite new_spec.
    replace ((PRS.k s <=? 0) || (PRS.n s <=? 0)) with false; [easy|].
    destruct Hs. symmetry. apply orb_false_iff. lia.
Qed.

(** After a successful [_ensure_top_row] the top row exists and has
    room, and the invariant holds. *)
Lemma opened_top s :
  prs_ok s -> at_row_limit s = false ->
  prs_ok (opened s) /\
  exists rs r,
    PRS._rows (opened s) = rs ++ [r] /\ Row.count r < PRS.k s /\
    ((PRS.no_row_or_top_full s = false /\ PRS._rows s = rs ++ [r]) \/
     (PRS.no_row_or_top_full s = true /\ PRS._rows s = rs /\
      r = empty_row (PRS.k s) (PRS.n s))).
Proof.
  intros Hs Hl. unfold opened. unfold at_row_limit in Hl.
  destruct (PRS.no_row_or_top_full s) eqn:E; simpl in Hl.
  - split.
    + destruct Hs as [Hk Hn Hm Hrows Hsize Hfull].
      split; simpl; auto.
      * intros mv Hmv. rewrite Hmv in Hl. specialize (Hm _ Hmv).
        rewrite length_app; simpl. lia.
      * apply Forall_app; split; [exact Hrows|].
        constructor; [|constructor].
        split; [now apply empty_row_ok | easy].
      * rewrite rows_total_snoc; simpl. lia.
      * intros rs r Hr. apply app_inj_tail in Hr as [<- _].
        unfold PRS.no_row_or_top_full in E.
        destruct (snoc_cases (PRS._rows s)) as [E0 | (l & r0 & E0)];
          rewrite E0 in *; [constructor|].
        rewrite list_top_snoc in E. unfold Row.is_full in E.
        apply Forall_app; split; [now apply (Hfull l r0)|].
        constructor; [|constructor].
        apply Forall_app in Hrows as [_ Hr0].
        inversion Hr0 as [|? ? ([] & Hk0 & _) _]; subst. lia.
    + exists (PRS._rows s), (empty_row (PRS.k s) (PRS.n s)).
      simpl. destruct Hs. split; [easy|]. split; [lia|]. now right.
  - split; [exact Hs|].
    unfold PRS.no_row_or_top_full in E.
    destruct (snoc_cases (PRS._rows s)) as [E0 | (l & r0 & E0)];
      rewrite E0 in *; [discriminate|].
    rewrite list_top_snoc in E. unfold Row.is_full in E.
    pose proof (inv_rows _ Hs) as Hrows. rewrite E0 in Hrows.
    apply Forall_app in Hrows as [_ Hr0].
    inversion Hr0 as [|? ? (_ & Hk0 & _) _]; subst.
    exists l, r0. repeat split; auto. lia.
Qed.

Lemma on_top_row_spec {A} (c : M (Row.t T) A) s rs r :
  PRS._rows s = rs ++ [r] ->
  PRS.on_top_row c s = (fst (c r), PRS.set_rows (rs ++ [snd (c r)]) s).
Proof.
  intros H. unfold PRS.on_top_row. rewrite H, list_pop_snoc.
  now destruct (c r).
Qed.

Lemma push_row_limit s x p :
  prs_ok s -> at_row_limit s = true ->
  PRS.push x p s = (Raise PRSError, s).
Proof.
  intros Hs Hl. unfold PRS.push, bind.
  now rewrite (ensure_spec _ Hs), Hl.
Qed.

Lemma push_bad_priority_stack s x p :
  prs_ok s -> at_row_limit s = false -> ~ (1 <= p <= PRS.n s) ->
  PRS.push x p s = (Raise PriorityError, opened s).
Proof.
  intros Hs Hl Hp. unfold PRS.push, bind.
  rewrite (ensure_spec _ Hs), Hl.
  destruct (opened_top _ Hs Hl) as (Ho & rs & r & Hrows & _ & _).
  rewrite (on_top_row_spec _ _ _ _ Hrows).
  pose proof (inv_rows _ Ho) as Hall. rewrite Hrows in Hall.
  apply Forall_app in Hall as [_ Hr].
  inversion Hr as [|? ? (_ & _ & Hn) _]; subst.
  rewrite push_bad_priority.
  - simpl. now rewrite <- Hrows, set_rows_same.
  - rewrite Hn. unfold opened.
    now destruct (PRS.no_row_or_top_full s).
Qed.

Lemma opened_fields s :
  PRS.k (opened s) = PRS.k s /\ PRS.n (opened s) = PRS.n s /\
  PRS.m (opened s) = PRS.m s /\ PRS._size (opened s) = PRS._size s.
Proof. unfold opened. now destruct (PRS.no_row_or_top_full s). Qed.

Lemma push_accepted s x p :
  prs_ok s -> at_row_limit s = false -> 1 <= p <= PRS.n s ->
  exists rs r b,
    PRS._rows (opened s) = rs ++ [r] /\
    nth_error (Row.buckets r) (Z.to_nat (p - 1)) = Some b /\
    PRS.push x p s
    = (Ok tt, pushed_stack s rs (pushed r x (Z.to_nat (p - 1)) b)) /\
    prs_ok (pushed_stack s rs (pushed r x (Z.to_nat (p - 1)) b)).
Proof.
  intros Hs Hl Hp.
  destruct (opened_top _ Hs Hl) as (Ho & rs & r & Hrows & Hroom & _).
  destruct (opened_fields s) as (Ek & En & Em & Esz).
  pose proof (inv_rows _ Ho) as Hall. rewrite Hrows in Hall.
  apply Forall_app in Hall as [Hrs Hr].
  inversion Hr as [|? ? (Hok & Hk & Hn) _]; subst.
  rewrite Ek in Hk. rewrite En in Hn.
  destruct (push_accepts r x p Hok) as (b & Hb & Hpush & Hok'); try lia.
  exists rs, r, b. split; [easy|]. split; [easy|]. split.
  - unfold PRS.push, bind. rewrite (ensure_spec _ Hs), Hl.
    rewrite (on_top_row_spec _ _ _ _ Hrows), Hpush; simpl.
    unfold modify, PRS.set_size, PRS.set_rows, pushed_stack; simpl.
    now rewrite Ek, En, Em, Esz.
  - destruct Ho as [Ik In Im Irows Isize Ifull].
    rewrite Ek in *. rewrite En in *. rewrite Em in *. rewrite Esz in *.
    split; simpl; auto.
    + intros mv Hmv. specialize (Im _ Hmv).
      rewrite Hrows in Im. rewrite length_app in *. simpl in *. lia.
    + apply Forall_app; split.
      * revert Hrs. apply Forall_impl. intros a (? & ? & ?).
        unfold row_of; simpl. rewrite Ek, En in *. easy.
      * constructor; [|constructor]. split; [easy|]. simpl. easy.
    + rewrite Hrows, rows_total_snoc in Isize.
      rewrite rows_total_snoc; simpl. lia.
    + intros rs0 r0 E. apply app_inj_tail in E as [<- _].
      now apply (Ifull rs r).
Qed.

(** *** Pruning *)

(** The loop of [prune_rows] is given enough iterations: it returns
    normally, in a state where the loop condition is false. *)
Lemma prune_loop_exits (fuel : nat) s :
  (length (PRS._rows s) <= fuel)%nat ->
  fst (PRS.prune_loop fuel s) = Ok tt /\
  PRS.top_row_is_empty (snd (PRS.prune_loop fuel s)) = false.
Proof.
  revert s; induction fuel as [|fuel IH]; intros s Hlen.
  - destruct (PRS._rows s) eqn:E; simpl in Hlen; [|lia].
    simpl. unfold PRS.top_row_is_empty. now rewrite E.
  - simpl. unfold bind, get.
    destruct (PRS.top_row_is_empty s) eqn:E; [|now simpl].
    unfold PRS.top_row_is_empty in E. unfold PRS.drop_top_row, bind, get.
    destruct (snoc_cases (PRS._rows s)) as [E0 | (rs & r & E0)];
      rewrite E0 in *; [discriminate|].
    rewrite list_pop_snoc. unfold modify.
    apply IH. simpl. rewrite length_app in Hlen. simpl in Hlen. lia.
Qed.

Lemma prune_rows_exits s :
  fst (PRS.prune_rows s) = Ok tt /\
  PRS.top_row_is_empty (snd (PRS.prune_rows s)) = false.
Proof.
  unfold PRS.prune_rows, bind, get. now apply prune_loop_exits.
Qed.

Lemma prune_spec s : prs_ok s -> PRS.prune_rows s = (Ok tt, pruned s).
Proof.
  intros Hs. unfold PRS.prune_rows, pruned, bind, get.
  destruct (snoc_cases (PRS._rows s)) as [E0 | (rs & r & E0)]; rewrite E0.
  - reflexivity.
  - rewrite list_pop_snoc, length_app, Nat.add_1_r. simpl.
    unfold bind, get, PRS.top_row_is_empty. rewrite E0, list_top_snoc.
    destruct (Row.is_empty r) eqn:Er; [|reflexivity].
    unfold PRS.drop_top_row, bind, get, modify.
    rewrite E0, list_pop_snoc.
    destruct (snoc_cases rs) as [E1 | (rs' & r' & E1)]; rewrite E1.
    + reflexivity.
    + rewrite length_app, Nat.add_1_r. simpl.
      unfold bind, get, PRS.top_row_is_empty; simpl.
      rewrite list_top_snoc.
      replace (Row.is_empty r') with false; [reflexivity|].
      pose proof (inv_full _ Hs _ _ E0) as Hfull. rewrite E1 in Hfull.
      apply Forall_app in Hfull as [_ Hfull].
      inversion Hfull as [|? ? Hc _]; subst.
      pose proof (inv_k _ Hs). unfold Row.is_empty. lia.
Qed.

Lemma pruned_ok s : prs_ok s -> prs_ok (pruned s).
Proof.
  intros Hs. unfold pruned.
  destruct (snoc_cases (PRS._rows s)) as [E0 | (rs & r & E0)]; rewrite E0.
  - exact Hs.
  - rewrite list_pop_snoc.
    destruct (Row.is_empty r) eqn:Er; [|exact Hs].
    unfold Row.is_empty in Er.
    pose proof (inv_full _ Hs _ _ E0) as Hfull.
    destruct Hs as [Ik In Im Irows Isize _].
    rewrite E0 in *. split; simpl; auto.
    + intros mv Hmv. specialize (Im _ Hmv).
      rewrite length_app in Im. simpl in Im. lia.
    + now apply Forall_app in Irows as [Irows _].
    + rewrite rows_total_snoc in Isize. lia.
    + intros rs' r' ->. now apply Forall_app in Hfull as [Hfull _].
Qed.

Lemma pruned_fields s :
  PRS.k (pruned s) = PRS.k s /\ PRS.n (pruned s) = PRS.n s /\
  PRS.m (pruned s) = PRS.m s /\ PRS._size (pruned s) = PRS._size s.
Proof.
  unfold pruned. destruct (list_pop (PRS._rows s)) as [[rs r]|]; [|easy].
  now destruct (Row.is_empty r).
Qed.

Lemma pop_order_empty r :
  row_ok r -> Row.count r = 0 -> pop_order (Row.buckets r) = [].
Proof.
  intros Hr Hc. apply length_zero_iff_nil. rewrite pop_order_length.
  rewrite (ok_count _ Hr) in Hc. lia.
Qed.

Lemma pruned_order s :
  prs_ok s -> stack_order (PRS._rows (pruned s)) = stack_order (PRS._rows s).
Proof.
  intros Hs. unfold pruned.
  destruct (snoc_cases (PRS._rows s)) as [E0 | (rs & r & E0)]; rewrite E0.
  - simpl. now rewrite E0.
  - rewrite list_pop_snoc.
    destruct (Row.is_empty r) eqn:Er; [|now rewrite E0].
    simpl. rewrite stack_order_snoc, pop_order_empty; [easy| |].
    + pose proof (inv_rows _ Hs) as Hrows. rewrite E0 in Hrows.
      apply Forall_app in Hrows as [_ Hr].
      now inversion Hr as [|? ? (? & _) _].
    + unfold Row.is_empty in Er. lia.
Qed.

(** With a non-zero size, pruning leaves a non-empty row at the top. *)
Lemma pruned_top s :
  prs_ok s -> PRS._size s <> 0 ->
  exists rs r,
    PRS._rows (pruned s) = rs ++ [r] /\ Row.count r <> 0 /\ row_of s r.
Proof.
  intros Hs Hsz.
  pose proof (inv_k _ Hs) as Hk.
  pose proof (inv_size _ Hs) as Hsize.
  pose proof (inv_rows _ Hs) as Hrows.
  unfold pruned.
  destruct (snoc_cases (PRS._rows s)) as [E0 | (rs & r & E0)];
    rewrite E0 in *.
  - simpl in Hsize. lia.
  - rewrite list_pop_snoc. rewrite rows_total_snoc in Hsize.
    apply Forall_app in Hrows as [Hrs Hr].
    inversion Hr as [|? ? Hr0 _]; subst.
    destruct (Row.is_empty r) eqn:Er; unfold Row.is_empty in Er.
    + simpl. pose proof (inv_full _ Hs _ _ E0) as Hfull.
      destruct (snoc_cases rs) as [E1 | (rs' & r' & E1)]; rewrite E1 in *.
      * simpl in Hsize. lia.
      * exists rs', r'. split; [easy|].
        apply Forall_app in Hfull as [_ Hfull].
        inversion Hfull as [|? ? Hc _]; subst.
        apply Forall_app in Hrs as [_ Hr'].
        inversion Hr' as [|? ? Hr1 _]; subst.
        split; [lia | easy].
    + exists rs, r. rewrite E0. split; [easy|]. split; [lia | easy].
Qed.

(** *** peek and pop *)

Lemma peek_pop_empty s :
  PRS._size s = 0 ->
  PRS.peek s = (Raise EmptyError, s) /\ PRS.pop s = (Raise EmptyError, s).
Proof.
  intros H. unfold PRS.peek, PRS.pop, bind, get. now rewrite H.
Qed.

Lemma peek_pop_nonempty s :
  prs_ok s -> PRS._size s <> 0 ->
  exists rs r i b x,
    PRS._rows (pruned s) = rs ++ [r] /\
    lowest_occupied (Row.buckets r) = Some i /\
    nth_error (Row.buckets r) i = Some (b ++ [x]) /\
    PRS.peek s = (Ok x, pruned s) /\
    PRS.pop s = (Ok x, popped_stack s rs (popped r i b)) /\
    prs_ok (popped_stack s rs (popped r i b)) /\
    stack_order (PRS._rows s)
    = x :: stack_order (PRS._rows (popped_stack s rs (popped r i b))).
Proof.
  intros Hs Hsz.
  destruct (pruned_top _ Hs Hsz) as (rs & r & Hrows & Hc & Hr).
  destruct Hr as (Hok & Hk & Hn).
  destruct (pop_nonempty r Hok Hc) as (i & b & x & Hlow & Hb & Hpeek & Hpop & Hok').
  destruct (pruned_fields s) as (Ek & En & Em & Esz).
  pose proof (pruned_ok _ Hs) as Hp.
  exists rs, r, i, b, x. repeat (split; [easy|]).
  assert (Hnil : exists r0 l0, PRS._rows (pruned s) = r0 :: l0).
  { rewrite Hrows. destruct rs; simpl; eauto. }
  destruct Hnil as (r0 & l0 & Hnil).
  split; [|split; [|split]].
  - unfold PRS.peek, bind, get. replace (PRS._size s =? 0) with false by lia.
    rewrite (prune_spec _ Hs), Hnil, (on_top_row_spec _ _ _ _ Hrows), Hpeek.
    simpl. now rewrite <- Hrows, set_rows_same.
  - unfold PRS.pop, bind, get. replace (PRS._size s =? 0) with false by lia.
    rewrite (prune_spec _ Hs), Hnil, (on_top_row_spec _ _ _ _ Hrows), Hpop.
    unfold modify, ret, PRS.top_row_is_empty, popped_stack. simpl.
    rewrite list_top_snoc.
    destruct (Row.is_empty (popped r i b)).
    + unfold PRS.drop_top_row, bind, get, modify; simpl.
      rewrite list_pop_snoc. unfold PRS.set_rows; simpl.
      now rewrite Ek, En, Em, Esz.
    + unfold PRS.set_size, PRS.set_rows; simpl.
      now rewrite Ek, En, Em, Esz.
  - destruct Hp as [Ik In Im Irows Isize Ifull].
    rewrite Ek, En, Em, Esz, Hrows in *.
    pose proof (Ifull _ _ eq_refl) as Hfull.
    apply Forall_app in Irows as [Irs _].
    rewrite rows_total_snoc in Isize.
    assert (Hrs : Forall (row_of (popped_stack s rs (popped r i b))) rs).
    { revert Irs. apply Forall_impl. intros a (? & ? & ?).
      unfold row_of; simpl. rewrite Ek, En in *. easy. }
    split; simpl; auto.
    + intros mv Hmv. specialize (Im _ Hmv).
      rewrite length_app in Im. simpl in Im.
      destruct (Row.is_empty (popped r i b)); [lia|].
      rewrite length_app; simpl; lia.
    + destruct (Row.is_empty (popped r i b)); [easy|].
      apply Forall_app; split; [easy|].
      constructor; [|constructor]. split; [easy|]. simpl. easy.
    + destruct (Row.is_empty (popped r i b)) eqn:Ee;
        unfold Row.is_empty in Ee; simpl in Ee.
      * lia.
      * rewrite rows_total_snoc; simpl. lia.
    + destruct (Row.is_empty (popped r i b)).
      * intros rs' r' ->. now apply Forall_app in Hfull as [Hfull _].
      * intros rs' r' E. now apply app_inj_tail in E as [<- _].
  - rewrite <- (pruned_order _ Hs), Hrows, stack_order_snoc.
    rewrite (pop_order_lowest _ _ _ _ Hlow Hb). simpl. f_equal.
    destruct (Row.is_empty (popped r i b)) eqn:Ee.
    + unfold Row.is_empty in Ee.
      assert (E : pop_order (Row.buckets (popped r i b)) = [])
        by (apply pop_order_empty; [easy | lia]).
      simpl in E. now rewrite E.
    + now rewrite stack_order_snoc.
Qed.

(** *** tolist *)

Lemma tolist_loop_spec rs (out : list T) :
  Forall (fun r => length (Row.buckets r) = Z.to_nat (Row.n r)) rs ->
  PRS.tolist_loop rs out
  = Ok (out ++ concat (map (fun r => pop_order (Row.buckets r)) rs)).
Proof.
  intros H. revert out. induction H as [|r rs Hr _ IH]; intros out.
  - simpl. now rewrite app_nil_r.
  - cbn [PRS.tolist_loop]. rewrite (tolist_spec _ Hr). simpl.
    now rewrite IH, app_assoc.
Qed.

Lemma tolist_spec_stack s :
  prs_ok s -> PRS.tolist s = (Ok (stack_order (PRS._rows s)), s).
Proof.
  intros Hs. unfold PRS.tolist, bind, get, pure_result.
  rewrite tolist_loop_spec; [reflexivity|].
  apply Forall_rev. pose proof (inv_rows _ Hs) as Hrows.
  revert Hrows. apply Forall_impl. intros r (Hr & _). now destruct Hr.
Qed.
End StackFacts.

(** ** Runs of the public operations *)

Section RunFacts.
Context {T : Type}.
Implicit Types (s : PRS.t T) (o : op T).

Lemma exec_ok o s :
  prs_ok s ->
  prs_ok (snd (exec o s)) /\
  PRS._size (snd (exec o s)) = PRS._size s + size_change (o, fst (exec o s)).
Proof.
  intros Hs. destruct o as [x p| |]; unfold exec, bind, size_change.
  - destruct (at_row_limit s) eqn:Hl.
    + rewrite (push_row_limit _ x p Hs Hl). simpl. split; [easy | lia].
    + destruct (Z_le_dec 1 p) as [H1|H1];
        [destruct (Z_le_dec p (PRS.n s)) as [H2|H2]|].
      * destruct (push_accepted s x p Hs Hl (conj H1 H2))
          as (rs & r & b & _ & _ & -> & Hok).
        simpl. split; [easy | lia].
      * rewrite (push_bad_priority_stack _ x p Hs Hl) by lia. simpl.
        split; [apply (opened_top _ Hs Hl)|].
        destruct (opened_fields s) as (_ & _ & _ & ->). lia.
      * rewrite (push_bad_priority_stack _ x p Hs Hl) by lia. simpl.
        split; [apply (opened_top _ Hs Hl)|].
        destruct (opened_fields s) as (_ & _ & _ & ->). lia.
  - destruct (Z.eq_dec (PRS._size s) 0) as [Hz|Hz].
    + destruct (peek_pop_empty s Hz) as [_ ->]. simpl. split; [easy | lia].
    + destruct (peek_pop_nonempty s Hs Hz)
        as (rs & r & i & b & x & _ & _ & _ & _ & -> & Hok & _).
      simpl. split; [easy | lia].
  - destruct (Z.eq_dec (PRS._size s) 0) as [Hz|Hz].
    + destruct (peek_pop_empty s Hz) as [-> _]. simpl. split; [easy | lia].
    + destruct (peek_pop_nonempty s Hs Hz)
        as (rs & r & i & b & x & _ & _ & _ & -> & _ & _ & _).
      simpl. split; [now apply pruned_ok|].
      destruct (pruned_fields s) as (_ & _ & _ & ->). lia.
Qed.

Lemma reachable_ok s : reachable s -> prs_ok s.
Proof.
  induction 1 as [k n m s H | o s _ IH].
  - now apply new_ok in H.
  - now apply exec_ok.
Qed.

Lemma run_app_state (ops : list (op T)) s :
  reachable s -> reachable (snd (run ops s)).
Proof.
  revert s; induction ops as [|o ops IH]; intros s Hs; simpl; [easy|].
  pose proof (reach_step o s Hs) as Hs'.
  destruct (exec o s) as [res s']. simpl in Hs'.
  specialize (IH _ Hs'). now destruct (run ops s').
Qed.

Lemma run_size (ops : list (op T)) s :
  prs_ok s ->
  prs_ok (snd (run ops s)) /\
  PRS._size (snd (run ops s))
  = PRS._size s + count_log accepted_push (fst (run ops s))
    - count_log successful_pop (fst (run ops s)).
Proof.
  unfold count_log.
  revert s; induction ops as [|o ops IH]; intros s Hs; simpl.
  - split; [easy | lia].
  - destruct (exec_ok o s Hs) as [Hok Hsz].
    destruct (exec o s) as [res s']. simpl in Hok, Hsz.
    destruct (IH _ Hok) as [Hok' Hsz'].
    destruct (run ops s') as [log s'']. simpl in *.
    split; [easy|]. rewrite Hsz', Hsz. unfold size_change.
    destruct o, res; simpl; lia.
Qed.

Lemma stack_order_length (rs : list (Row.t T)) :
  Forall row_ok rs -> Z.of_nat (length (stack_order rs)) = rows_total rs.
Proof.
  induction rs as [|r rs IH] using rev_ind; intros H; [easy|].
  apply Forall_app in H as [Hrs Hr].
  inversion Hr as [|? ? Hr0 _]; subst.
  rewrite stack_order_snoc, rows_total_snoc, length_app, pop_order_length.
  rewrite (ok_count _ Hr0), <- (IH Hrs). lia.
Qed.

Lemma pop_all_spec (fuel : nat) s :
  prs_ok s -> PRS._size s = Z.of_nat fuel ->
  exists s',
    pop_all fuel s = Some (Ok (stack_order (PRS._rows s)), s') /\
    PRS.is_empty s' = true.
Proof.
  revert s; induction fuel as [|fuel IH]; intros s Hs Hsz.
  - exists s. simpl. unfold PRS.is_empty. rewrite Hsz. simpl.
    split; [|easy]. f_equal. f_equal. f_equal.
    symmetry. apply length_zero_iff_nil.
    assert (Forall row_ok (PRS._rows s)) as Hall.
    { pose proof (inv_rows _ Hs) as H. revert H. apply Forall_impl.
      now intros r (? & _). }
    pose proof (stack_order_length _ Hall) as E.
    rewrite <- (inv_size _ Hs) in E. lia.
  - destruct (peek_pop_nonempty s Hs)
      as (rs & r & i & b & x & _ & _ & _ & _ & Hpop & Hok & Hord); [lia|].
    destruct (IH _ Hok) as (s' & Hall & He); [simpl; lia|].
    exists s'. split; [|easy].
    cbn [pop_all]. unfold PRS.is_empty.
    replace (PRS._size s =? 0) with false by lia.
    now rewrite Hpop, Hall, Hord.
Qed.
End RunFacts.

(** ** The retrieval rule: the row refines it *)

Section RuleFacts.
Context {T : Type}.
Implicit Types (l : list (RowSpec.entry (T:=T))) (q : Z) (i j : nat).

Lemma list_set_map_seq {B} (f g : nat -> B) (n i : nat) (v : B) :
  (i < n)%nat -> g i = v -> (forall j, j <> i -> g j = f j) ->
  list_set i v (map f (seq 0 n)) = map g (seq 0 n).
Proof.
  intros Hi Hv Hg. apply nth_error_ext. intros j.
  destruct (Nat.eq_dec i j) as [<- | Hne].
  - rewrite list_set_same by now rewrite length_map, length_seq.
    rewrite nth_error_map, nth_error_seq.
    replace (i <? n)%nat with true by (symmetry; apply Nat.ltb_lt; lia).
    simpl. now rewrite Hv.
  - rewrite list_set_other by easy.
    rewrite !nth_error_map, nth_error_seq.
    destruct (j <? n)%nat; simpl; [|easy]. rewrite Hg; auto.
Qed.

Lemma nth_bucket l (n : Z) i :
  (i < Z.to_nat n)%nat ->
  nth_error (map (bucket_of l) (range n)) i = Some (bucket_of l i).
Proof.
  intros H. unfold range. rewrite nth_error_map, nth_error_seq.
  now replace (i <? Z.to_nat n)%nat with true
    by (symmetry; apply Nat.ltb_lt; lia).
Qed.

Lemma holding_app q l l' :
  RowSpec.holding q (l ++ l') = RowSpec.holding q l ++ RowSpec.holding q l'.
Proof. unfold RowSpec.holding. now rewrite filter_app, map_app. Qed.

Lemma holding_nil q l :
  RowSpec.holding q l = [] <-> existsb (fun e => snd e =? q) l = false.
Proof.
  unfold RowSpec.holding.
  induction l as [|e l IH]; simpl; [easy|].
  destruct (snd e =? q); simpl; [easy | exact IH].
Qed.

Lemma holding_In q l :
  RowSpec.holding q l <> [] <-> exists e, In e l /\ snd e = q.
Proof.
  unfold RowSpec.holding.
  induction l as [|e l IH]; simpl.
  - split; [easy | now intros (? & [] & _)].
  - destruct (snd e =? q) eqn:E; simpl.
    + split; [|easy]. intros _. exists e. split; [now left | lia].
    + rewrite IH. split.
      * intros (e' & ? & ?). exists e'. auto.
      * intros (e' & [<- | ?] & ?); [lia | eauto].
Qed.

Lemma holding_remove_latest q q' l :
  RowSpec.holding q' (RowSpec.remove_latest q l)
  = if q =? q' then removelast (RowSpec.holding q' l)
    else RowSpec.holding q' l.
Proof.
  induction l as [|e l IH]; simpl.
  - now destruct (q =? q').
  - destruct (existsb (fun e' => snd e' =? q) l) eqn:Ex.
    + unfold RowSpec.holding in *. simpl.
      destruct (snd e =? q') eqn:E; simpl; rewrite IH;
        destruct (q =? q') eqn:Eq; try easy.
      assert (q = q') as <- by lia.
      destruct (map fst (filter (fun e0 => snd e0 =? q) l)) eqn:Em;
        [|easy].
      apply (holding_nil q l) in Em. congruence.
    + apply holding_nil in Ex.
      destruct (snd e =? q) eqn:E.
      * assert (snd e = q) as Hq by lia.
        unfold RowSpec.holding in *. simpl.
        destruct (q =? q') eqn:Eq.
        -- assert (q = q') as <- by lia. rewrite E, Ex. simpl.
           now rewrite Ex.
        -- now replace (snd e =? q') with false by lia.
      * destruct (q =? q') eqn:Eq; [|easy].
        assert (q = q') as <- by lia.
        unfold RowSpec.holding in *. simpl. rewrite E.
        now rewrite Ex.
Qed.

Lemma remove_latest_length q l :
  existsb (fun e => snd e =? q) l = true ->
  S (length (RowSpec.remove_latest q l)) = length l.
Proof.
  induction l as [|e l IH]; simpl; [easy|].
  destruct (existsb (fun e' => snd e' =? q) l) eqn:Ex.
  - intros _. simpl. now rewrite IH.
  - rewrite orb_false_r. now intros ->.
Qed.

Lemma remove_latest_incl q l e :
  In e (RowSpec.remove_latest q l) -> In e l.
Proof.
  induction l as [|e' l IH]; simpl; [easy|].
  destruct (existsb (fun e0 => snd e0 =? q) l).
  - intros [-> | H]; auto.
  - destruct (snd e' =? q); simpl; auto.
Qed.

Lemma lowest_priority_None l : RowSpec.lowest_priority l = None -> l = [].
Proof.
  destruct l as [|e l]; simpl; [easy|].
  now destruct (RowSpec.lowest_priority l).
Qed.

Lemma lowest_priority_Some l q :
  RowSpec.lowest_priority l = Some q ->
  (exists e, In e l /\ snd e = q) /\ (forall e, In e l -> q <= snd e).
Proof.
  revert q; induction l as [|e l IH]; intros q; simpl; [easy|].
  destruct (RowSpec.lowest_priority l) as [q'|] eqn:E.
  - intros [= <-]. destruct (IH _ eq_refl) as ((e' & Hin & He') & Hmin).
    split.
    + destruct (Z.min_spec (snd e) q') as [[_ ->] | [_ ->]]; eauto.
    + intros e0 [<- | H]; [lia|]. specialize (Hmin _ H). lia.
  - intros [= <-]. apply lowest_priority_None in E. subst. split.
    + exists e; auto.
    + intros e0 [<- | []]. lia.
Qed.

Lemma lowest_occupied_below (bs : list (list T)) i j :
  lowest_occupied bs = Some i -> (j < i)%nat -> nth_error bs j = Some [].
Proof.
  revert i j; induction bs as [|[|x b] bs IH]; intros i j; simpl; try easy.
  - destruct (lowest_occupied bs) as [i'|]; simpl; [|easy].
    intros [= <-] Hj. destruct j as [|j]; simpl; [easy|].
    apply (IH i'); [easy | lia].
  - intros [= <-]. lia.
Qed.

(** The cache of a row points at the bucket of the lowest priority present. *)
Lemma lowest_agree l (n : Z) i :
  Forall (fun e => 1 <= snd e <= n) l ->
  lowest_occupied (map (bucket_of l) (range n)) = Some i ->
  RowSpec.lowest_priority l = Some (Z.of_nat i + 1).
Proof.
  intros Hp Hlow.
  destruct (lowest_occupied_Some _ _ Hlow) as (b & x & Hb).
  assert (Hi : (i < Z.to_nat n)%nat).
  { assert (H : nth_error (map (bucket_of l) (range n)) i <> None)
      by now rewrite Hb.
    apply nth_error_Some in H. unfold range in H.
    now rewrite length_map, length_seq in H. }
  rewrite nth_bucket in Hb by easy. injection Hb as Hb.
  assert (Hne : bucket_of l i <> []) by (rewrite Hb; now destruct b).
  apply holding_In in Hne as (e & Hin & He).
  destruct (RowSpec.lowest_priority l) as [q|] eqn:Eq.
  2:{ apply lowest_priority_None in Eq. now subst. }
  destruct (lowest_priority_Some _ _ Eq) as ((e' & Hin' & He') & Hmin).
  f_equal. pose proof (Hmin _ Hin) as Hle.
  rewrite Forall_forall in Hp. pose proof (Hp _ Hin') as Hr.
  destruct (Z.eq_dec q (Z.of_nat i + 1)) as [|Hneq]; [easy|].
  exfalso.
  assert (Hj : (Z.to_nat (q - 1) < i)%nat) by lia.
  pose proof (lowest_occupied_below _ _ _ Hlow Hj) as Hnil.
  rewrite nth_bucket in Hnil by lia. injection Hnil as Hnil.
  assert (Hex : bucket_of l (Z.to_nat (q - 1)) <> []).
  { apply holding_In. exists e'. split; [easy | lia]. }
  easy.
Qed.
End RuleFacts.

Section Refinement.
Context {T : Type}.
Implicit Types (r : Row.t T) (l : list (RowSpec.entry (T:=T))).

Lemma models_new (k n : Z) r : Row.new k n = Ok r -> models k n r [].
Proof.
  rewrite new_spec.
  destruct ((k <=? 0) || (n <=? 0)) eqn:E; [easy|].
  apply orb_false_iff in E as [Hk Hn]. intros [= <-].
  split; simpl; auto.
  apply empty_row_ok; lia.
Qed.

Lemma models_answer (k n : Z) r l :
  models k n r l ->
  fst (Row.peek r) = expected (RowSpec.next l) /\
  fst (Row.pop r) = expected (RowSpec.next l).
Proof.
  intros [Hok Hk Hn Hb Hc Hp].
  destruct (Z.eq_dec (Row.count r) 0) as [Hz|Hz].
  - destruct (pop_empty r Hz) as [-> ->].
    destruct l; [easy | simpl in Hc; lia].
  - destruct (pop_nonempty r Hok Hz)
      as (i & b & x & Hlow & Hnth & -> & -> & _).
    rewrite Hb in Hlow, Hnth.
    assert (Hi : (i < Z.to_nat n)%nat).
    { assert (H : nth_error (map (bucket_of l) (range n)) i <> None)
        by now rewrite Hnth.
      apply nth_error_Some in H. unfold range in H.
      now rewrite length_map, length_seq in H. }
    rewrite nth_bucket in Hnth by easy. injection Hnth as Hnth.
    unfold RowSpec.next. rewrite (lowest_agree _ _ _ Hp Hlow).
    unfold bucket_of in Hnth. now rewrite Hnth, list_top_snoc.
Qed.

Lemma models_step (k n : Z) (o : row_op T) r l :
  models k n r l -> models k n (snd (row_exec o r)) (spec_step k n o l).
Proof.
  intros Hm. pose proof Hm as [Hok Hk Hn Hb Hc Hp].
  destruct o as [x p| |]; unfold row_exec, bind; simpl.
  - (* push *)
    unfold RowSpec.push.
    destruct ((1 <=? p) && (p <=? n)) eqn:Er; simpl.
    2:{ rewrite push_bad_priority; [easy|].
        rewrite Hn. intros H.
        assert ((1 <=? p) && (p <=? n) = true)
          by (apply andb_true_iff; lia). congruence. }
    apply andb_true_iff in Er as [E1 E2].
    apply Z.leb_le in E1, E2.
    destruct (Z.of_nat (length l) <? k) eqn:Ef.
    2:{ rewrite push_full; [easy | lia | lia]. }
    destruct (push_accepts r x p Hok) as (b & Hnth & -> & Hok'); try lia.
    simpl. rewrite Hb in Hnth.
    rewrite nth_bucket in Hnth by lia. injection Hnth as <-.
    split; simpl; auto.
    + rewrite Hb. unfold range. apply list_set_map_seq; [lia | |].
      * unfold bucket_of. rewrite holding_app. f_equal.
        unfold RowSpec.holding; simpl.
        replace (p =? Z.of_nat (Z.to_nat (p - 1)) + 1) with true; [easy|].
        symmetry. apply Z.eqb_eq. lia.
      * intros j Hj. unfold bucket_of. rewrite holding_app.
        unfold RowSpec.holding at 2; simpl.
        replace (p =? Z.of_nat j + 1) with false
          by (symmetry; apply Z.eqb_neq; lia).
        simpl. now rewrite app_nil_r.
    + rewrite length_app; simpl. lia.
    + apply Forall_app. split; [easy|]. constructor; [simpl; lia | easy].
  - (* pop *)
    destruct (Z.eq_dec (Row.count r) 0) as [Hz|Hz].
    + destruct (pop_empty r Hz) as [-> _]. simpl.
      destruct l; [easy | simpl in Hc; lia].
    + destruct (pop_nonempty r Hok Hz)
        as (i & b & x & Hlow & Hnth & _ & -> & Hok').
      simpl. rewrite Hb in Hlow, Hnth.
      assert (Hi : (i < Z.to_nat n)%nat).
      { assert (H : nth_error (map (bucket_of l) (range n)) i <> None)
          by now rewrite Hnth.
        apply nth_error_Some in H. unfold range in H.
        now rewrite length_map, length_seq in H. }
      rewrite nth_bucket in Hnth by easy. injection Hnth as Hnth.
      unfold RowSpec.remove_next. rewrite (lowest_agree _ _ _ Hp Hlow).
      assert (Hex : existsb (fun e => snd e =? Z.of_nat i + 1) l = true).
      { destruct (existsb (fun e => snd e =? Z.of_nat i + 1) l) eqn:E;
          [easy|].
        apply holding_nil in E. unfold bucket_of in Hnth.
        rewrite E in Hnth. now destruct b. }
      split; simpl; auto.
      * rewrite Hb. unfold range. apply list_set_map_seq; [easy | |].
        -- unfold bucket_of. rewrite holding_remove_latest, Z.eqb_refl.
           unfold bucket_of in Hnth. now rewrite Hnth, removelast_last.
        -- intros j Hj. unfold bucket_of. rewrite holding_remove_latest.
           now replace (Z.of_nat i + 1 =? Z.of_nat j + 1) with false
             by (symmetry; apply Z.eqb_neq; lia).
      * pose proof (remove_latest_length _ _ Hex). lia.
      * rewrite Forall_forall in *. intros e He.
        apply Hp. now apply remove_latest_incl in He.
  - (* peek *)
    destruct (Z.eq_dec (Row.count r) 0) as [Hz|Hz].
    + now destruct (pop_empty r Hz) as [_ ->].
    + destruct (pop_nonempty r Hok Hz)
        as (i & b & x & _ & _ & -> & _ & _).
      easy.
Qed.

(** Every row built by the constructor and then used through its
    methods holds the contents the rule gives for the same calls. *)
Lemma row_refines (k n : Z) (ops : list (row_op T)) r l :
  models k n r l -> models k n (row_run ops r) (spec_run k n ops l).
Proof.
  revert r l; induction ops as [|o ops IH]; intros r l Hm; simpl; [easy|].
  apply IH. now apply models_step.
Qed.
End Refinement.

(** * Properties *)

(** C1: a row built by [PRSRow(k, n)] and used through any sequence of
    push, pop and peek calls answers the next [pop], and the next
    [peek], with the most recently pushed item among the items currently
    in the row that hold the numerically lowest priority present
    ([EmptyError] when the row holds nothing); in particular, with
    [k = 5], [n = 2], three pushes [x1], [x2], [x3] at priority 1 pop as
    [x3], [x2], [x1], on a row and on a stack. *)
Theorem C1_row_retrieval_rule :
  (forall (T : Type) (k n : Z) (r0 : Row.t T) (ops : list (row_op T)),
      Row.new k n = Ok r0 ->
      fst (Row.peek (row_run ops r0))
      = expected (RowSpec.next (spec_run k n ops [])) /\
      fst (Row.pop (row_run ops r0))
      = expected (RowSpec.next (spec_run k n ops []))) /\
  (exists r0 r1 r2 r3 : Row.t string,
      Row.new 5 2 = Ok r0 /\
      Row.pop (row_run [RPush "x1" 1; RPush "x2" 1; RPush "x3" 1] r0)
      = (Ok "x3", r1) /\
      Row.pop r1 = (Ok "x2", r2) /\
      Row.pop r2 = (Ok "x1", r3)) /\
  results_of 5 2 None [Push "x1" 1; Push "x2" 1; Push "x3" 1; Pop; Pop; Pop]
  = Ok [Ok None; Ok None; Ok None;
        Ok (Some "x3"); Ok (Some "x2"); Ok (Some "x1")].
Proof.
  split; [|split].
  - intros T k n r0 ops H.
    apply (models_answer k n).
    apply row_refines. now apply models_new.
  - do 4 eexists. repeat split; vm_compute; reflexivity.
  - vm_compute. reflexivity.
Qed.

Lemma C1_witness :
  Row.new 3 2 = Ok (@empty_row string 3 2) /\
  fst (Row.pop (row_run [RPush "u" 2; RPush "v" 1; RPush "w" 1; RPop]
                        (@empty_row string 3 2)))
  = expected (RowSpec.next
                (spec_run 3 2 [RPush "u" 2; RPush "v" 1; RPush "w" 1; RPop] [])).
Proof.
  split; [reflexivity|].
  apply (proj1 C1_row_retrieval_rule string 3 2 (empty_row 3 2)
               [RPush "u" 2; RPush "v" 1; RPush "w" 1; RPop]).
  reflexivity.
Defined.

(** C2 as stated fails: with [k = 4], [n = 3] the four items share one
    row, and the pops do not come out as [d, b, a, c]. *)
Lemma C2_counterexample :
  results_of 4 3 None
    [Push "a" 2; Push "b" 1; Push "c" 3; Push "d" 2; Pop; Pop; Pop; Pop]
  <> Ok [Ok None; Ok None; Ok None; Ok None;
         Ok (Some "d"); Ok (Some "b"); Ok (Some "a"); Ok (Some "c")].
Proof. vm_compute. discriminate. Qed.

(** C2, amended: on a stack with [k = 4], [n = 3], pushing [('a',2)],
    [('b',1)], [('c',3)], [('d',2)] and popping four times yields
    [b, d, a, c]; the sequence [d, b, a, c] is what [k = 3], [n = 3]
    yields, where [d] opens a second row. *)
Theorem C2_pop_sequence :
  results_of 4 3 None
    [Push "a" 2; Push "b" 1; Push "c" 3; Push "d" 2; Pop; Pop; Pop; Pop]
  = Ok [Ok None; Ok None; Ok None; Ok None;
        Ok (Some "b"); Ok (Some "d"); Ok (Some "a"); Ok (Some "c")] /\
  results_of 3 3 None
    [Push "a" 2; Push "b" 1; Push "c" 3; Push "d" 2; Pop; Pop; Pop; Pop]
  = Ok [Ok None; Ok None; Ok None; Ok None;
        Ok (Some "d"); Ok (Some "b"); Ok (Some "a"); Ok (Some "c")].
Proof. split; vm_compute; reflexivity. Qed.

Lemma demo_reachable : reachable demo.
Proof.
  apply run_app_state. apply (reach_new 3 3 None). reflexivity.
Defined.

(** C3: in every reachable state, [tolist] returns exactly the items
    that popping until the stack is empty returns, in that order, and
    leaves the stack as it is; a second [tolist] returns the same. *)
Theorem C3_snapshot_is_pop_order :
  forall (T : Type) (s : PRS.t T),
    reachable s ->
    exists (l : list T) (s' : PRS.t T),
      PRS.tolist s = (Ok l, s) /\
      pop_all (Z.to_nat (PRS.size s)) s = Some (Ok l, s') /\
      PRS.is_empty s' = true /\
      PRS.tolist (snd (PRS.tolist s)) = PRS.tolist s.
Proof.
  intros T s Hr. apply reachable_ok in Hr.
  destruct (pop_all_spec (Z.to_nat (PRS.size s)) s Hr) as (s' & Hall & He).
  { unfold PRS.size. rewrite (inv_size _ Hr).
    assert (0 <= rows_total (PRS._rows s)); [|lia].
    apply rows_total_nonneg. pose proof (inv_rows _ Hr) as H.
    revert H. apply Forall_impl. intros r Hrow.
    apply row_of_count in Hrow. lia. }
  exists (stack_order (PRS._rows s)), s'.
  rewrite (tolist_spec_stack _ Hr). simpl.
  now rewrite (tolist_spec_stack _ Hr).
Qed.

Lemma C3_witness :
  reachable demo /\
  exists (l : list string) (s' : PRS.t string),
    PRS.tolist demo = (Ok l, demo) /\
    pop_all (Z.to_nat (PRS.size demo)) demo = Some (Ok l, s') /\
    PRS.is_empty s' = true /\
    PRS.tolist (snd (PRS.tolist demo)) = PRS.tolist demo.
Proof.
  split; [exact demo_reachable|].
  apply (C3_snapshot_is_pop_order string demo demo_reachable).
Defined.

(** C5: in every reachable state, [peek] fails with [EmptyError]
    exactly when [size() == 0], and so does [pop]; a call that fails
    with [EmptyError] leaves the stack as it was. *)
Theorem C5_empty_error :
  forall (T : Type) (s : PRS.t T),
    reachable s ->
    (fst (PRS.peek s) = Raise EmptyError <-> PRS.size s = 0) /\
    (fst (PRS.pop s) = Raise EmptyError <-> PRS.size s = 0) /\
    (fst (PRS.peek s) = Raise EmptyError -> snd (PRS.peek s) = s) /\
    (fst (PRS.pop s) = Raise EmptyError -> snd (PRS.pop s) = s).
Proof.
  intros T s Hr. apply reachable_ok in Hr. unfold PRS.size.
  destruct (Z.eq_dec (PRS._size s) 0) as [Hz|Hz].
  - destruct (peek_pop_empty s Hz) as [-> ->]. simpl. tauto.
  - destruct (peek_pop_nonempty s Hr Hz)
      as (rs & r & i & b & x & _ & _ & _ & -> & -> & _).
    simpl. repeat split; intros; try discriminate; try contradiction.
Qed.

Lemma C5_witness :
  reachable (@PRS.mk string 2 2 None [] 0) /\
  (fst (PRS.pop (@PRS.mk string 2 2 None [] 0)) = Raise EmptyError
   <-> PRS.size (@PRS.mk string 2 2 None [] 0) = 0).
Proof.
  assert (H : reachable (@PRS.mk string 2 2 None [] 0))
    by (apply (reach_new 2 2 None); reflexivity).
  split; [exact H|].
  apply (C5_empty_error string _ H).
Defined.

(** C8: in every reachable state with [size() > 0], the pruning loop of
    [peek] and [pop] returns with a non-empty row at the top, so the
    second [EmptyError] branch is not taken: [peek] and [pop] return an
    item. *)
Theorem C8_pruning_leaves_a_row :
  forall (T : Type) (s : PRS.t T),
    reachable s -> 0 < PRS.size s ->
    fst (PRS.prune_rows s) = Ok tt /\
    (exists rs r,
        PRS._rows (snd (PRS.prune_rows s)) = rs ++ [r] /\
        Row.is_empty r = false) /\
    (exists x, fst (PRS.peek s) = Ok x) /\
    (exists x, fst (PRS.pop s) = Ok x).
Proof.
  intros T s Hr Hsz. apply reachable_ok in Hr. unfold PRS.size in Hsz.
  assert (Hz : PRS._size s <> 0) by lia.
  rewrite (prune_spec _ Hr). simpl. split; [easy|].
  destruct (peek_pop_nonempty s Hr Hz)
    as (rs & r & i & b & x & Hrows & _ & _ & -> & -> & _).
  destruct (pruned_top s Hr Hz) as (rs' & r' & Hrows' & Hc & _).
  split; [|split; exists x; reflexivity].
  exists rs', r'. split; [easy|]. unfold Row.is_empty. lia.
Qed.

Lemma C8_witness :
  reachable demo /\ 0 < PRS.size demo /\
  (exists x, fst (PRS.pop demo) = Ok x).
Proof.
  split; [exact demo_reachable|]. split; [reflexivity|].
  apply (C8_pruning_leaves_a_row string demo demo_reachable).
  reflexivity.
Defined.

Section LogFacts.
Context {T : Type}.

Lemma run_length (ops : list (op T)) (s : PRS.t T) :
  length (fst (run ops s)) = length ops.
Proof.
  revert s; induction ops as [|o ops IH]; intros s; simpl; [easy|].
  destruct (exec o s) as [res s']. specialize (IH s').
  destruct (run ops s'). simpl in *. now rewrite IH.
Qed.

Lemma only_accepted_pushes (log : list (op T * result (option T))) :
  forallb accepted_push log = true ->
  count_log accepted_push log = Z.of_nat (length log) /\
  count_log successful_pop log = 0.
Proof.
  unfold count_log. induction log as [|e log IH]; simpl; [easy|].
  intros H. apply andb_true_iff in H as [He Hl].
  destruct (IH Hl) as [IH1 IH2]. rewrite He.
  replace (successful_pop e) with false
    by (destruct e as [[| |] []]; simpl in *; congruence).
  simpl. split; lia.
Qed.

(** The rows of the stack after a push, whatever its outcome: those
    left by [_ensure_top_row], the top one possibly updated. *)
Lemma push_rows_length (s : PRS.t T) (x : T) (p : Z) :
  prs_ok s ->
  length (PRS._rows (snd (PRS.push x p s))) = length (PRS._rows s) \/
  (PRS.no_row_or_top_full s = true /\
   length (PRS._rows (snd (PRS.push x p s))) = S (length (PRS._rows s))).
Proof.
  intros Hs.
  assert (Ho : length (PRS._rows (opened s)) = length (PRS._rows s) \/
               (PRS.no_row_or_top_full s = true /\
                length (PRS._rows (opened s)) = S (length (PRS._rows s)))).
  { unfold opened. destruct (PRS.no_row_or_top_full s); [right | now left].
    split; [easy|]. simpl. rewrite length_app. simpl. lia. }
  destruct (at_row_limit s) eqn:Hl.
  - rewrite (push_row_limit _ x p Hs Hl). now left.
  - destruct (Z_le_dec 1 p) as [H1|H1];
      [destruct (Z_le_dec p (PRS.n s)) as [H2|H2]|].
    + destruct (push_accepted s x p Hs Hl (conj H1 H2))
        as (rs & r & b & Hrows & _ & -> & _).
      simpl. rewrite Hrows in Ho. now rewrite !length_app in *.
    + now rewrite (push_bad_priority_stack _ x p Hs Hl) by lia.
    + now rewrite (push_bad_priority_stack _ x p Hs Hl) by lia.
Qed.
End LogFacts.

(** C7: after any sequence of push, pop and peek calls on a fresh stack,
    [size()] is the number of accepted pushes minus the number of
    successful pops; it is the sum of the rows' [count], and every row's
    [count] is the sum of the lengths of its buckets; when every call of
    the sequence is an accepted push, [size()] is the number of calls
    and, the sequence not being empty, [is_empty()] is false. *)
Theorem C7_size_accounting :
  forall (T : Type) (k n : Z) (m : option Z) (s0 : PRS.t T)
         (ops : list (op T)),
    PRS.new k n m = Ok s0 ->
    let log := fst (run ops s0) in
    let s := snd (run ops s0) in
    PRS.size s
    = count_log accepted_push log - count_log successful_pop log /\
    PRS.size s = rows_total (PRS._rows s) /\
    Forall (fun r => Row.count r = Z.of_nat (sum_lengths (Row.buckets r)))
           (PRS._rows s) /\
    (forallb accepted_push log = true ->
     PRS.size s = Z.of_nat (length ops) /\
     (ops <> [] -> PRS.is_empty s = false)).
Proof.
  intros T k n m s0 ops Hnew log s.
  destruct (new_ok _ _ _ _ Hnew) as [H0 E0].
  destruct (run_size ops s0 H0) as [Hok Hsz].
  fold s in Hok, Hsz. fold log in Hsz.
  assert (Hsize : PRS.size s
            = count_log accepted_push log - count_log successful_pop log).
  { unfold PRS.size. rewrite Hsz, E0. simpl. lia. }
  split; [exact Hsize|]. split; [exact (inv_size _ Hok)|]. split.
  - pose proof (inv_rows _ Hok) as H. revert H. apply Forall_impl.
    intros r (Hr & _). now destruct Hr.
  - intros Hall. destruct (only_accepted_pushes _ Hall) as [E1 E2].
    assert (Hlen : PRS.size s = Z.of_nat (length ops)).
    { rewrite Hsize, E1, E2. unfold log. rewrite run_length. lia. }
    split; [exact Hlen|]. intros Hne.
    unfold PRS.is_empty. unfold PRS.size in Hlen. rewrite Hlen.
    destruct ops; [easy | simpl; lia].
Qed.

Lemma C7_witness :
  PRS.new 3 3 None = Ok (@PRS.mk string 3 3 None [] 0) /\
  PRS.size demo
  = count_log accepted_push (fst (run demo_ops (PRS.mk 3 3 None [] 0)))
    - count_log successful_pop (fst (run demo_ops (PRS.mk 3 3 None [] 0))).
Proof.
  split; [reflexivity|].
  apply (C7_size_accounting string 3 3 None (PRS.mk 3 3 None [] 0) demo_ops).
  reflexivity.
Defined.

Lemma demo_pruning_reachable : reachable demo_pruning.
Proof.
  apply run_app_state. apply (reach_new 2 1 None). reflexivity.
Defined.

(** C10: in every reachable state every row except the last is full,
    with [count = k], hence neither partially filled nor empty; a push
    lengthens [_rows] only when there was no row or the last row was
    full; a pop touches only the row at the top after pruning; and the
    pruning loop of [peek] and [pop] removes at most one row, an empty
    one at the end. *)
Theorem C10_rows_below_top_full :
  forall (T : Type) (s : PRS.t T),
    reachable s ->
    (forall rs r,
        PRS._rows s = rs ++ [r] ->
        Forall (fun r' => Row.count r' = PRS.k s /\
                          Row.is_full r' = true /\ Row.is_empty r' = false)
               rs) /\
    (forall x p,
        (length (PRS._rows s)
         < length (PRS._rows (snd (PRS.push x p s))))%nat ->
        PRS.no_row_or_top_full s = true) /\
    (PRS._rows (snd (PRS.pop s)) = PRS._rows s \/
     exists rs r,
       PRS._rows (snd (PRS.prune_rows s)) = rs ++ [r] /\
       (PRS._rows (snd (PRS.pop s)) = rs \/
        exists r', PRS._rows (snd (PRS.pop s)) = rs ++ [r'])) /\
    (PRS._rows (snd (PRS.prune_rows s)) = PRS._rows s \/
     exists r,
       PRS._rows s = PRS._rows (snd (PRS.prune_rows s)) ++ [r] /\
       Row.is_empty r = true).
Proof.
  intros T s Hr. apply reachable_ok in Hr.
  split; [|split; [|split]].
  - intros rs r Hrows. pose proof (inv_full _ Hr _ _ Hrows) as Hfull.
    pose proof (inv_rows _ Hr) as Hall. rewrite Hrows in Hall.
    apply Forall_app in Hall as [Hall _].
    pose proof (inv_k _ Hr) as Hk.
    rewrite Forall_forall in *. intros r' Hin.
    specialize (Hfull _ Hin). destruct (Hall _ Hin) as (_ & Hk' & _).
    unfold Row.is_full, Row.is_empty. repeat split; lia.
  - intros x p Hlen.
    destruct (push_rows_length s x p Hr) as [E | [E _]]; [lia | easy].
  - destruct (Z.eq_dec (PRS._size s) 0) as [Hz|Hz].
    + destruct (peek_pop_empty s Hz) as [_ ->]. now left.
    + destruct (peek_pop_nonempty s Hr Hz)
        as (rs & r & i & b & x & Hrows & _ & _ & _ & -> & _).
      right. exists rs, r. rewrite (prune_spec _ Hr). simpl.
      split; [easy|].
      destruct (Row.is_empty (popped r i b)); [now left | right; eauto].
  - rewrite (prune_spec _ Hr). simpl. unfold pruned.
    destruct (snoc_cases (PRS._rows s)) as [E0 | (rs & r & E0)]; rewrite E0.
    + simpl. now left.
    + rewrite list_pop_snoc.
      destruct (Row.is_empty r) eqn:Er; [|left; now rewrite E0].
      right. exists r. now simpl.
Qed.

Lemma C10_witness :
  reachable demo_pruning /\
  (PRS._rows (snd (PRS.prune_rows demo_pruning)) = PRS._rows demo_pruning \/
   exists r,
     PRS._rows demo_pruning
     = PRS._rows (snd (PRS.prune_rows demo_pruning)) ++ [r] /\
     Row.is_empty r = true).
Proof.
  split; [exact demo_pruning_reachable|].
  apply (C10_rows_below_top_full string demo_pruning demo_pruning_reachable).
Defined.

Section LimitFacts.
Context {T : Type}.

(** [at_row_limit], in the words of the row-limit rule. *)
Lemma at_row_limit_iff (s : PRS.t T) :
  prs_ok s ->
  at_row_limit s = true <->
  exists mv,
    PRS.m s = Some mv /\ PRS.rows_count s = mv /\
    (forall r, list_top (PRS._rows s) = Some r -> Row.is_full r = true).
Proof.
  intros Hs. unfold at_row_limit, PRS.no_row_or_top_full, PRS.rows_count.
  split.
  - intros H. apply andb_true_iff in H as [Hfull Hm].
    destruct (PRS.m s) as [mv|] eqn:Em; [|discriminate].
    exists mv. destruct (inv_m _ Hs _ Em) as [_ Hle].
    apply Z.leb_le in Hm. split; [easy|]. split; [lia|].
    intros r Hr. now rewrite Hr in Hfull.
  - intros (mv & -> & <- & Hfull). apply andb_true_iff. split.
    + destruct (list_top (PRS._rows s)) as [r|]; [now apply Hfull | easy].
    + apply Z.leb_le. lia.
Qed.

Lemma push_result_cases (s : PRS.t T) (x : T) (p : Z) :
  prs_ok s ->
  (at_row_limit s = true /\ PRS.push x p s = (Raise PRSError, s)) \/
  (at_row_limit s = false /\ ~ (1 <= p <= PRS.n s) /\
   PRS.push x p s = (Raise PriorityError, opened s)) \/
  (at_row_limit s = false /\ 1 <= p <= PRS.n s /\
   fst (PRS.push x p s) = Ok tt /\
   PRS._size (snd (PRS.push x p s)) = PRS._size s + 1).
Proof.
  intros Hs. destruct (at_row_limit s) eqn:Hl.
  - left. split; [easy|]. now apply push_row_limit.
  - right. destruct (Z_le_dec 1 p) as [H1|H1];
      [destruct (Z_le_dec p (PRS.n s)) as [H2|H2]|].
    + right. split; [easy|]. split; [lia|].
      destruct (push_accepted s x p Hs Hl (conj H1 H2))
        as (rs & r & b & _ & _ & -> & _).
      simpl. split; [easy | lia].
    + left. split; [easy|]. split; [lia|].
      apply push_bad_priority_stack; [easy | easy | lia].
    + left. split; [easy|]. split; [lia|].
      apply push_bad_priority_stack; [easy | easy | lia].
Qed.
End LimitFacts.

(** C6: in every reachable state, [push] fails with the row-limit
    [PRSError] exactly when [m] is set, [rows_count()] equals [m] and the
    last row, if any, is full, and then the stack is unchanged;
    otherwise [_ensure_top_row] keeps the rows when the top row has room
    and appends a fresh row when there is no row or the top one is full.
    [rows_count()] never exceeds [m].  With [k = 1], [n = 1], [m = 2]
    two pushes are accepted, into two rows of one item each, and the
    third fails with the row-limit error and changes nothing. *)
Theorem C6_row_limit :
  (forall (T : Type) (s : PRS.t T) (x : T) (p : Z),
      reachable s ->
      (fst (PRS.push x p s) = Raise PRSError <->
       exists mv,
         PRS.m s = Some mv /\ PRS.rows_count s = mv /\
         (forall r, list_top (PRS._rows s) = Some r ->
                    Row.is_full r = true)) /\
      (fst (PRS.push x p s) = Raise PRSError -> snd (PRS.push x p s) = s) /\
      (fst (PRS.push x p s) <> Raise PRSError ->
       (PRS.no_row_or_top_full s = false /\
        PRS._ensure_top_row s = (Ok tt, s)) \/
       (PRS.no_row_or_top_full s = true /\
        PRS._ensure_top_row s
        = (Ok tt, PRS.set_rows
                    (PRS._rows s ++ [empty_row (PRS.k s) (PRS.n s)]) s))) /\
      (forall mv, PRS.m s = Some mv -> PRS.rows_count s <= mv)) /\
  (exists s2 : PRS.t string,
      state_after 1 1 (Some 2) [Push "r1" 1; Push "r2" 1] = Ok s2 /\
      PRS.rows_count s2 = 2 /\
      map Row.count (PRS._rows s2) = [1; 1] /\
      results_of 1 1 (Some 2) [Push "r1" 1; Push "r2" 1; Push "r3" 1]
      = Ok [Ok None; Ok None; Raise PRSError] /\
      PRS.push "r3" 1 s2 = (Raise PRSError, s2)).
Proof.
  split.
  - intros T s x p Hr. apply reachable_ok in Hr.
    rewrite <- (at_row_limit_iff s Hr).
    pose proof (ensure_spec s Hr) as He.
    split; [|split; [|split]].
    + destruct (push_result_cases s x p Hr)
        as [[Hl ->] | [(Hl & _ & ->) | (Hl & _ & -> & _)]];
        simpl; split; congruence.
    + destruct (push_result_cases s x p Hr)
        as [[Hl ->] | [(Hl & _ & ->) | (Hl & _ & -> & _)]];
        simpl; congruence.
    + intros Hne.
      assert (Hl : at_row_limit s = false).
      { destruct (push_result_cases s x p Hr) as [[Hl E] | [[Hl _] | [Hl _]]];
          try easy. rewrite E in Hne. now simpl in Hne. }
      rewrite Hl in He. rewrite He. unfold opened.
      destruct (PRS.no_row_or_top_full s); [now right | now left].
    + intros mv Hm. apply (inv_m _ Hr _ Hm).
  - eexists. repeat split; vm_compute; reflexivity.
Qed.

Lemma C6_witness :
  reachable (snd (run [Push "r1" 1; Push "r2" 1] (PRS.mk 1 1 (Some 2) [] 0))) /\
  (fst (PRS.push "r3" 1
          (snd (run [Push "r1" 1; Push "r2" 1] (PRS.mk 1 1 (Some 2) [] 0))))
   = Raise PRSError <->
   exists mv,
     PRS.m (snd (run [Push "r1" 1; Push "r2" 1] (PRS.mk 1 1 (Some 2) [] 0)))
     = Some mv /\
     PRS.rows_count
       (snd (run [Push "r1" 1; Push "r2" 1] (PRS.mk 1 1 (Some 2) [] 0))) = mv /\
     (forall r,
         list_top
           (PRS._rows
              (snd (run [Push "r1" 1; Push "r2" 1] (PRS.mk 1 1 (Some 2) [] 0))))
         = Some r ->
         Row.is_full r = true)).
Proof.
  assert (Hr : reachable (snd (run [Push "r1" 1; Push "r2" 1]
                                   (PRS.mk 1 1 (Some 2) [] 0)))).
  { apply run_app_state. apply (reach_new 1 1 (Some 2)). reflexivity. }
  split; [exact Hr|].
  apply (proj1 C6_row_limit string _ "r3" 1 Hr).
Defined.

(** C4 as stated fails: on a fresh stack a push with priority 0 raises
    [PriorityError] after [_ensure_top_row] has appended a row, and
    [rows_count()] has changed. *)
Lemma C4_counterexample :
  exists s : PRS.t string,
    PRS.new 2 2 None = Ok s /\
    ~ (1 <= 0 <= PRS.n s) /\
    fst (PRS.push "bad" 0 s) = Raise PriorityError /\
    PRS.rows_count (snd (PRS.push "bad" 0 s)) <> PRS.rows_count s /\
    snd (PRS.push "bad" 0 s) <> s.
Proof.
  eexists. split; [reflexivity|]. split; [simpl; lia|].
  split; [reflexivity|]. split; vm_compute; discriminate.
Qed.

(** C4, amended: in every reachable state a push with a priority outside
    [1, n] fails and inserts nothing.  At the row limit it fails with the
    row-limit [PRSError] and the stack is unchanged.  Otherwise it fails
    with [PriorityError]; [size()], [is_empty()] and the snapshot are
    unchanged, and so are the rows, except that a fresh empty row has
    been appended when there was no row or the last row was full. *)
Theorem C4_bad_priority :
  forall (T : Type) (s : PRS.t T) (x : T) (p : Z),
    reachable s -> ~ (1 <= p <= PRS.n s) ->
    (at_row_limit s = true -> PRS.push x p s = (Raise PRSError, s)) /\
    (at_row_limit s = false ->
     fst (PRS.push x p s) = Raise PriorityError /\
     PRS.size (snd (PRS.push x p s)) = PRS.size s /\
     PRS.is_empty (snd (PRS.push x p s)) = PRS.is_empty s /\
     fst (PRS.tolist (snd (PRS.push x p s))) = fst (PRS.tolist s) /\
     ((PRS.no_row_or_top_full s = false /\ snd (PRS.push x p s) = s) \/
      (PRS.no_row_or_top_full s = true /\
       snd (PRS.push x p s)
       = PRS.set_rows (PRS._rows s ++ [empty_row (PRS.k s) (PRS.n s)]) s))).
Proof.
  intros T s x p Hr Hp. apply reachable_ok in Hr.
  split; intros Hl.
  - now apply push_row_limit.
  - rewrite (push_bad_priority_stack s x p Hr Hl Hp). cbn [fst snd].
    destruct (opened_top _ Hr Hl) as (Ho & _).
    split; [easy|]. unfold PRS.size, PRS.is_empty.
    destruct (opened_fields s) as (_ & _ & _ & ->).
    split; [easy|]. split; [easy|]. split.
    + rewrite (tolist_spec_stack _ Ho), (tolist_spec_stack _ Hr).
      cbn [fst snd]. unfold opened. destruct (PRS.no_row_or_top_full s); [|easy].
      cbn [PRS._rows PRS.set_rows]. rewrite stack_order_snoc.
      now rewrite (pop_order_empty _
                     (empty_row_ok _ _ (inv_k _ Hr) (inv_n _ Hr))).
    + unfold opened. destruct (PRS.no_row_or_top_full s); [now right | now left].
Qed.

Lemma C4_witness :
  reachable demo /\ ~ (1 <= 7 <= PRS.n demo) /\
  (at_row_limit demo = false ->
   fst (PRS.push "z" 7 demo) = Raise PriorityError /\
   PRS.size (snd (PRS.push "z" 7 demo)) = PRS.size demo).
Proof.
  split; [exact demo_reachable|].
  assert (H : ~ (1 <= 7 <= PRS.n demo)) by (simpl; lia).
  split; [exact H|]. intros Hl.
  destruct (C4_bad_priority string demo "z" 7 demo_reachable H) as [_ Hc].
  destruct (Hc Hl) as (H1 & H2 & _). split; [exact H1 | exact H2].
Defined.




(** * Further properties of the rows and of the stack *)

Section RowRuns.
Context {T : Type}.

Lemma row_run_models (k n : Z) (r0 : Row.t T) (ops : list (row_op T)) :
  Row.new k n = Ok r0 ->
  models k n (row_run ops r0) (spec_run k n ops []).
Proof. intros H. apply row_refines. now apply models_new. Qed.

Lemma row_exec_errors (o : row_op T) (r : Row.t T) (e : exn_class) :
  row_ok r -> fst (row_exec o r) = Raise e -> row_error e.
Proof.
  intros Hr. unfold row_error.
  destruct o as [x p| |]; unfold row_exec, bind.
  - destruct (Z_le_dec 1 p) as [H1|H1];
      [destruct (Z_le_dec p (Row.n r)) as [H2|H2]|].
    + destruct (Z_lt_dec (Row.count r) (Row.k r)) as [Hc|Hc].
      * destruct (push_accepts r x p Hr (conj H1 H2) Hc) as (b & _ & -> & _).
        discriminate.
      * rewrite push_full by lia. simpl. intros [= <-]. auto.
    + rewrite push_bad_priority by lia. simpl. intros [= <-]. auto.
    + rewrite push_bad_priority by lia. simpl. intros [= <-]. auto.
  - destruct (Z.eq_dec (Row.count r) 0) as [Hz|Hz].
    + destruct (pop_empty r Hz) as [-> _]. simpl. intros [= <-]. auto.
    + destruct (pop_nonempty r Hr Hz) as (i & b & x & _ & _ & _ & -> & _).
      discriminate.
  - destruct (Z.eq_dec (Row.count r) 0) as [Hz|Hz].
    + destruct (pop_empty r Hz) as [_ ->]. simpl. intros [= <-]. auto.
    + destruct (pop_nonempty r Hr Hz) as (i & b & x & _ & _ & -> & _ & _).
      discriminate.
Qed.
End RowRuns.

(** X1: a row built by [PRSRow(k, n)] and used through any calls of
    push, pop and peek keeps [k] and [n], has [n] buckets, has
    [0 <= count <= k] with [count] the number of items in the buckets,
    and has a coherent cache: [top_priority_idx] is [None] exactly when
    the row is empty, and otherwise is the index of a non-empty bucket
    below which every bucket is empty.  The next call raises nothing but
    [PriorityError], [RowFullError] or [EmptyError]: the assertion and
    the list accesses of the methods never fail. *)
Theorem X1_row_invariant :
  forall (T : Type) (k n : Z) (r0 : Row.t T) (ops : list (row_op T)),
    Row.new k n = Ok r0 ->
    let r := row_run ops r0 in
    Row.k r = k /\ Row.n r = n /\
    length (Row.buckets r) = Z.to_nat n /\
    0 <= Row.count r <= k /\
    Row.count r = Z.of_nat (sum_lengths (Row.buckets r)) /\
    (Row.top_priority_idx r = None <-> Row.count r = 0) /\
    (forall i, Row.top_priority_idx r = Some i ->
               (exists b x, nth_error (Row.buckets r) i = Some (b ++ [x])) /\
               forall j, (j < i)%nat -> nth_error (Row.buckets r) j = Some []) /\
    (forall o e, fst (row_exec o r) = Raise e -> row_error e).
Proof.
  intros T k n r0 ops Hnew r.
  destruct (row_run_models k n r0 ops Hnew) as [Hok Hk Hn _ _ _].
  fold r in Hok, Hk, Hn.
  pose proof Hok as [H1 H2 H3 H4 H5 H6].
  split; [easy|]. split; [easy|]. split; [now rewrite <- Hn|].
  split; [lia|]. split; [easy|]. split; [|split].
  - rewrite H6, lowest_occupied_None. lia.
  - intros i Hi. rewrite H6 in Hi. split.
    + now apply lowest_occupied_Some.
    + intros j Hj. now apply (lowest_occupied_below _ i).
  - intros o e. now apply row_exec_errors.
Qed.

Lemma X1_witness :
  Row.new 2 3 = Ok (@empty_row string 2 3) /\
  0 <= Row.count (row_run [RPush "a" 3; RPush "b" 2; RPush "c" 1; RPop]
                          (@empty_row string 2 3)) <= 2.
Proof.
  split; [reflexivity|].
  apply (X1_row_invariant string 2 3 (empty_row 2 3)
           [RPush "a" 3; RPush "b" 2; RPush "c" 1; RPop]).
  reflexivity.
Defined.

(** X2: on such a row, [push] checks the priority first and the room
    second: a priority outside [1, n] raises [PriorityError] even when
    the row is full, a valid priority on a row with [count = k] raises
    [RowFullError], and both leave the row unchanged; otherwise the push
    returns, [count] grows by one, the item is the last of bucket
    [priority - 1] and the other buckets are as before. *)
Theorem X2_row_push_outcomes :
  forall (T : Type) (k n : Z) (r0 : Row.t T) (ops : list (row_op T))
         (x : T) (p : Z),
    Row.new k n = Ok r0 ->
    let r := row_run ops r0 in
    let r' := snd (Row.push x p r) in
    (~ (1 <= p <= n) -> Row.push x p r = (Raise PriorityError, r)) /\
    (1 <= p <= n -> Row.count r = k ->
     Row.push x p r = (Raise RowFullError, r)) /\
    (1 <= p <= n -> Row.count r < k ->
     fst (Row.push x p r) = Ok tt /\
     Row.count r' = Row.count r + 1 /\
     (exists b,
         nth_error (Row.buckets r) (Z.to_nat (p - 1)) = Some b /\
         nth_error (Row.buckets r') (Z.to_nat (p - 1)) = Some (b ++ [x])) /\
     (forall j, j <> Z.to_nat (p - 1) ->
                nth_error (Row.buckets r') j = nth_error (Row.buckets r) j)).
Proof.
  intros T k n r0 ops x p Hnew r r'.
  destruct (row_run_models k n r0 ops Hnew) as [Hok Hk Hn _ _ _].
  fold r in Hok, Hk, Hn. subst r'.
  split; [|split].
  - intros Hp. apply push_bad_priority. now rewrite Hn.
  - intros Hp Hc. apply push_full; lia.
  - intros Hp Hc.
    destruct (push_accepts r x p Hok) as (b & Hb & -> & _); try lia.
    simpl. split; [easy|]. split; [easy|]. split.
    + exists b. split; [easy|]. apply list_set_same.
      apply nth_error_Some. now rewrite Hb.
    + intros j Hj. now apply list_set_other.
Qed.

Lemma X2_witness :
  Row.new 1 2 = Ok (@empty_row string 1 2) /\
  (~ (1 <= 5 <= 2) ->
   Row.push "z" 5 (row_run [RPush "a" 1] (@empty_row string 1 2))
   = (Raise PriorityError, row_run [RPush "a" 1] (@empty_row string 1 2))).
Proof.
  split; [reflexivity|].
  apply (X2_row_push_outcomes string 1 2 (empty_row 1 2) [RPush "a" 1] "z" 5).
  reflexivity.
Defined.

(** X3: on such a row, [peek] leaves the row exactly as it is and
    returns what [pop] would return (the same item, or [EmptyError]). *)
Theorem X3_row_peek_read_only :
  forall (T : Type) (k n : Z) (r0 : Row.t T) (ops : list (row_op T)),
    Row.new k n = Ok r0 ->
    let r := row_run ops r0 in
    Row.peek r = (fst (Row.pop r), r).
Proof.
  intros T k n r0 ops Hnew r.
  destruct (row_run_models k n r0 ops Hnew) as [Hok _ _ _ _ _].
  fold r in Hok.
  destruct (Z.eq_dec (Row.count r) 0) as [Hz|Hz].
  - now destruct (pop_empty r Hz) as [-> ->].
  - now destruct (pop_nonempty r Hok Hz) as (i & b & x & _ & _ & -> & -> & _).
Qed.

Lemma X3_witness :
  Row.new 3 2 = Ok (@empty_row string 3 2) /\
  Row.peek (row_run [RPush "a" 2; RPush "b" 1] (@empty_row string 3 2))
  = (fst (Row.pop (row_run [RPush "a" 2; RPush "b" 1] (@empty_row string 3 2))),
     row_run [RPush "a" 2; RPush "b" 1] (@empty_row string 3 2)).
Proof.
  split; [reflexivity|].
  apply (X3_row_peek_read_only string 3 2 (empty_row 3 2)
           [RPush "a" 2; RPush "b" 1]).
  reflexivity.
Defined.

(** X4: on such a row, [tolist] returns the items currently held sorted
    by priority, from 1 to [n], the newest first within a priority; it
    returns [count] items and leaves the row as it is. *)
Theorem X4_row_tolist_by_priority :
  forall (T : Type) (k n : Z) (r0 : Row.t T) (ops : list (row_op T)),
    Row.new k n = Ok r0 ->
    let r := row_run ops r0 in
    Row.tolist r = (Ok (by_priority n (spec_run k n ops [])), r) /\
    Z.of_nat (length (by_priority n (spec_run k n ops []))) = Row.count r.
Proof.
  intros T k n r0 ops Hnew r.
  destruct (row_run_models k n r0 ops Hnew) as [Hok Hk Hn Hb Hc _].
  fold r in Hok, Hk, Hn, Hb, Hc.
  assert (E : pop_order (Row.buckets r) = by_priority n (spec_run k n ops [])).
  { rewrite Hb. unfold pop_order, by_priority. now rewrite map_map. }
  split.
  - rewrite tolist_spec by apply (ok_len _ Hok).
    now rewrite E.
  - rewrite <- E, pop_order_length. symmetry. apply (ok_count _ Hok).
Qed.

Lemma X4_witness :
  Row.new 4 3 = Ok (@empty_row string 4 3) /\
  Row.tolist (row_run [RPush "a" 2; RPush "b" 1; RPush "c" 3; RPush "d" 2]
                      (@empty_row string 4 3))
  = (Ok (by_priority 3
           (spec_run 4 3 [RPush "a" 2; RPush "b" 1; RPush "c" 3; RPush "d" 2]
                     [])),
     row_run [RPush "a" 2; RPush "b" 1; RPush "c" 3; RPush "d" 2]
             (@empty_row string 4 3)).
Proof.
  split; [reflexivity|].
  apply (X4_row_tolist_by_priority string 4 3 (empty_row 4 3)
           [RPush "a" 2; RPush "b" 1; RPush "c" 3; RPush "d" 2]).
  reflexivity.
Defined.

Section OrderFacts.
Context {T : Type}.
Implicit Types (s : PRS.t T) (r : Row.t T) (bs : list (list T)).

Lemma pop_order_push bs (i : nat) (b : list T) (x : T) :
  nth_error bs i = Some b ->
  Permutation (pop_order (list_set i (b ++ [x]) bs)) (x :: pop_order bs).
Proof.
  unfold pop_order.
  revert i; induction bs as [|c bs IH]; intros [|i]; simpl; try easy.
  - intros [= ->]. now rewrite rev_unit.
  - intros H. specialize (IH _ H).
    rewrite (Permutation_app_head (rev c) IH).
    symmetry. apply Permutation_middle.
Qed.

Lemma pop_order_push_front bs (i : nat) (b : list T) (x : T) :
  nth_error bs i = Some b ->
  (forall j, (j < i)%nat -> nth_error bs j = Some []) ->
  pop_order (list_set i (b ++ [x]) bs) = x :: pop_order bs.
Proof.
  unfold pop_order.
  revert i; induction bs as [|c bs IH]; intros [|i]; simpl; try easy.
  - intros [= ->] _. now rewrite rev_unit.
  - intros H Hlow.
    assert (c = []) as -> by (specialize (Hlow O); simpl in Hlow;
                              assert (Some c = Some []) by (apply Hlow; lia);
                              congruence).
    simpl. apply IH; [easy|].
    intros j Hj. apply (Hlow (S j)). lia.
Qed.

Lemma lowest_occupied_none_nth bs (j : nat) :
  lowest_occupied bs = None -> (j < length bs)%nat ->
  nth_error bs j = Some [].
Proof.
  revert j; induction bs as [|[|y c] bs IH]; intros j; simpl.
  - intros _ Hj. lia.
  - destruct (lowest_occupied bs); simpl; [easy|].
    intros _ Hj. destruct j as [|j]; simpl; [easy|]. apply IH; [easy | lia].
  - easy.
Qed.

Lemma list_set_twice {A} (i : nat) (v w : A) (l : list A) :
  list_set i w (list_set i v l) = list_set i w l.
Proof.
  revert i; induction l as [|a l IH]; intros [|i]; simpl; auto.
  now rewrite IH.
Qed.

Lemma list_set_id {A} (i : nat) (v : A) (l : list A) :
  nth_error l i = Some v -> list_set i v l = l.
Proof.
  revert i; induction l as [|a l IH]; intros [|i]; simpl; try easy.
  - now intros [= ->].
  - intros H. now rewrite IH.
Qed.

Lemma opened_order s :
  prs_ok s -> stack_order (PRS._rows (opened s)) = stack_order (PRS._rows s).
Proof.
  intros Hs. unfold opened. destruct (PRS.no_row_or_top_full s); [|easy].
  cbn [PRS._rows PRS.set_rows]. rewrite stack_order_snoc.
  now rewrite (pop_order_empty _
                 (empty_row_ok _ _ (inv_k _ Hs) (inv_n _ Hs))).
Qed.

Lemma size_nonneg s : prs_ok s -> 0 <= PRS._size s.
Proof.
  intros Hs. rewrite (inv_size _ Hs). apply rows_total_nonneg.
  pose proof (inv_rows _ Hs) as H. revert H. apply Forall_impl.
  intros r Hr. apply row_of_count in Hr. lia.
Qed.

Lemma rows_total_full (k : Z) (rs : list (Row.t T)) :
  Forall (fun r => Row.count r = k) rs ->
  rows_total rs = k * Z.of_nat (length rs).
Proof. induction 1 as [|r rs Hr _ IH]; simpl; lia. Qed.

Lemma size_decomp s (rs : list (Row.t T)) r :
  prs_ok s -> PRS._rows s = rs ++ [r] ->
  PRS._size s = PRS.k s * Z.of_nat (length rs) + Row.count r /\
  0 <= Row.count r <= PRS.k s.
Proof.
  intros Hs Hrows. pose proof (inv_full _ Hs _ _ Hrows) as Hfull.
  pose proof (inv_rows _ Hs) as Hall. rewrite Hrows in Hall.
  apply Forall_app in Hall as [_ Hr]. inversion Hr as [|? ? Hr0 _]; subst.
  rewrite (inv_size _ Hs), Hrows, rows_total_snoc.
  rewrite (rows_total_full _ _ Hfull). split; [easy|].
  now apply row_of_count.
Qed.

(** What one call does to the snapshot. *)
Lemma exec_order (o : op T) s :
  prs_ok s ->
  Permutation
    (accepted_items [(o, fst (exec o s))] ++ stack_order (PRS._rows s))
    (popped_items [(o, fst (exec o s))]
     ++ stack_order (PRS._rows (snd (exec o s)))).
Proof.
  intros Hs. destruct o as [x p| |]; unfold exec, bind.
  - destruct (at_row_limit s) eqn:Hl.
    + now rewrite (push_row_limit _ x p Hs Hl).
    + destruct (Z_le_dec 1 p) as [H1|H1];
        [destruct (Z_le_dec p (PRS.n s)) as [H2|H2]|].
      * destruct (push_accepted s x p Hs Hl (conj H1 H2))
          as (rs & r & b & Hrows & Hb & -> & _).
        simpl. rewrite stack_order_snoc. simpl.
        rewrite <- (opened_order s Hs), Hrows, stack_order_snoc.
        symmetry. rewrite (Permutation_app_tail _ (pop_order_push _ _ _ x Hb)).
        reflexivity.
      * rewrite (push_bad_priority_stack _ x p Hs Hl) by lia. simpl.
        now rewrite opened_order.
      * rewrite (push_bad_priority_stack _ x p Hs Hl) by lia. simpl.
        now rewrite opened_order.
  - destruct (Z.eq_dec (PRS._size s) 0) as [Hz|Hz].
    + now destruct (peek_pop_empty s Hz) as [_ ->].
    + destruct (peek_pop_nonempty s Hs Hz)
        as (rs & r & i & b & x & _ & _ & _ & _ & -> & _ & ->).
      reflexivity.
  - destruct (Z.eq_dec (PRS._size s) 0) as [Hz|Hz].
    + now destruct (peek_pop_empty s Hz) as [-> _].
    + destruct (peek_pop_nonempty s Hs Hz)
        as (rs & r & i & b & x & _ & _ & _ & -> & _ & _ & _).
      simpl. now rewrite pruned_order.
Qed.

Lemma accepted_items_cons (e : op T * result (option T)) log :
  accepted_items (e :: log) = accepted_items [e] ++ accepted_items log.
Proof. unfold accepted_items. simpl. now rewrite app_nil_r. Qed.

Lemma popped_items_cons (e : op T * result (option T)) log :
  popped_items (e :: log) = popped_items [e] ++ popped_items log.
Proof. unfold popped_items. simpl. now rewrite app_nil_r. Qed.

Lemma perm_chain (A1 A S P1 S' P S'' : list T) :
  Permutation (A1 ++ S) (P1 ++ S') ->
  Permutation (A ++ S') (P ++ S'') ->
  Permutation ((A1 ++ A) ++ S) ((P1 ++ P) ++ S'').
Proof.
  intros H1 H2. rewrite <- !app_assoc.
  rewrite (Permutation_app_swap_app A1 A S), H1.
  rewrite (Permutation_app_swap_app A P1 S'). now rewrite H2.
Qed.

Lemma run_order (ops : list (op T)) s :
  prs_ok s ->
  Permutation
    (accepted_items (fst (run ops s)) ++ stack_order (PRS._rows s))
    (popped_items (fst (run ops s))
     ++ stack_order (PRS._rows (snd (run ops s)))).
Proof.
  revert s; induction ops as [|o ops IH]; intros s Hs; [easy|].
  pose proof (exec_order o s Hs) as Hstep.
  destruct (exec_ok o s Hs) as [Hok _].
  cbn [run]. destruct (exec o s) as [res s']. cbn [fst snd] in Hstep, Hok.
  specialize (IH _ Hok). destruct (run ops s') as [log s''].
  cbn [fst snd] in *.
  rewrite accepted_items_cons, popped_items_cons.
  now apply (perm_chain _ _ _ _ (stack_order (PRS._rows s'))).
Qed.
End OrderFacts.

(** X5: nothing is lost and nothing is duplicated.  After any sequence
    of push, pop and peek calls on a fresh stack, the items of the
    accepted pushes are, up to order, the items the pops returned
    together with the items [tolist] reports. *)
Theorem X5_items_conserved :
  forall (T : Type) (k n : Z) (m : option Z) (s0 : PRS.t T)
         (ops : list (op T)),
    PRS.new k n m = Ok s0 ->
    exists l,
      fst (PRS.tolist (snd (run ops s0))) = Ok l /\
      Permutation (accepted_items (fst (run ops s0)))
                  (popped_items (fst (run ops s0)) ++ l).
Proof.
  intros T k n m s0 ops Hnew.
  destruct (new_ok _ _ _ _ Hnew) as [H0 E0].
  destruct (run_size ops s0 H0) as [Hok _].
  exists (stack_order (PRS._rows (snd (run ops s0)))).
  rewrite (tolist_spec_stack _ Hok). split; [easy|].
  pose proof (run_order ops s0 H0) as H.
  rewrite E0 in H at 2. simpl in H. now rewrite app_nil_r in H.
Qed.

Lemma X5_witness :
  PRS.new 3 3 None = Ok (@PRS.mk string 3 3 None [] 0) /\
  exists l,
    fst (PRS.tolist (snd (run demo_ops (PRS.mk 3 3 None [] 0)))) = Ok l /\
    Permutation (accepted_items (fst (run demo_ops (PRS.mk 3 3 None [] 0))))
                (popped_items (fst (run demo_ops (PRS.mk 3 3 None [] 0))) ++ l).
Proof.
  split; [reflexivity|].
  apply (X5_items_conserved string 3 3 None (PRS.mk 3 3 None [] 0) demo_ops).
  reflexivity.
Defined.

Section CapacityFacts.
Context {T : Type}.
Implicit Types (s : PRS.t T) (r : Row.t T).

Lemma top_cases s :
  (PRS._rows s = [] /\ list_top (PRS._rows s) = None) \/
  (exists rs r, PRS._rows s = rs ++ [r] /\ list_top (PRS._rows s) = Some r).
Proof.
  destruct (snoc_cases (PRS._rows s)) as [E | (rs & r & E)]; rewrite E.
  - now left.
  - right. exists rs, r. now rewrite list_top_snoc.
Qed.

(** The row limit is reached exactly when [k * m] items are held. *)
Lemma at_row_limit_size s :
  prs_ok s ->
  at_row_limit s = false <->
  (forall mv, PRS.m s = Some mv -> PRS._size s < PRS.k s * mv).
Proof.
  intros Hs. pose proof (inv_k _ Hs) as Hk.
  unfold at_row_limit, PRS.no_row_or_top_full.
  destruct (top_cases s) as [[E Et] | (rs & r & E & Et)]; rewrite Et.
  - pose proof (inv_size _ Hs) as Hsz. rewrite E in *. simpl in *.
    destruct (PRS.m s) as [mv|] eqn:Em.
    + destruct (inv_m _ Hs _ Em) as [Hm _]. split.
      * intros _ ? [= <-]. nia.
      * intros _. apply Z.leb_gt. lia.
    + split; [intros _ ? [=] | easy].
  - destruct (size_decomp s rs r Hs E) as [Hsz Hc].
    unfold Row.is_full.
    pose proof (inv_rows _ Hs) as Hall. rewrite E in Hall.
    apply Forall_app in Hall as [_ Hr].
    inversion Hr as [|? ? (_ & Hkr & _) _]; subst. rewrite Hkr.
    destruct (PRS.m s) as [mv|] eqn:Em.
    + destruct (inv_m _ Hs _ Em) as [Hm Hlen]. rewrite E in *.
      rewrite length_app in *. simpl in *. split.
      * intros H ? [= <-]. apply andb_false_iff in H as [H | H].
        -- apply Z.leb_gt in H. nia.
        -- apply Z.leb_gt in H. nia.
      * intros H. specialize (H _ eq_refl). apply andb_false_iff.
        destruct (Z_lt_dec (Row.count r) (PRS.k s)) as [Hlt | Hge].
        -- left. apply Z.leb_gt. lia.
        -- right. apply Z.leb_gt. nia.
    + rewrite andb_false_r. split; [intros _ ? [=] | easy].
Qed.

Lemma size_bounds s :
  prs_ok s ->
  PRS.k s * (PRS.rows_count s - 1) <= PRS.size s <= PRS.k s * PRS.rows_count s.
Proof.
  intros Hs. pose proof (inv_k _ Hs) as Hk. unfold PRS.rows_count, PRS.size.
  destruct (snoc_cases (PRS._rows s)) as [E | (rs & r & E)].
  - pose proof (inv_size _ Hs) as Hsz. rewrite E in *. simpl in *. lia.
  - destruct (size_decomp s rs r Hs E) as [Hsz Hc].
    rewrite E, length_app. simpl. nia.
Qed.

(** A stack whose rows all hold something has exactly the rows its
    size needs. *)
Lemma size_bounds_tight s :
  prs_ok s -> Forall (fun r => Row.is_empty r = false) (PRS._rows s) ->
  PRS.k s * (PRS.rows_count s - 1) < PRS.size s.
Proof.
  intros Hs Hne. pose proof (inv_k _ Hs) as Hk.
  unfold PRS.rows_count, PRS.size.
  destruct (snoc_cases (PRS._rows s)) as [E | (rs & r & E)].
  - pose proof (inv_size _ Hs) as Hsz. rewrite E in *. simpl in *. lia.
  - destruct (size_decomp s rs r Hs E) as [Hsz Hc].
    rewrite E in Hne. apply Forall_app in Hne as [_ Hr].
    inversion Hr as [|? ? Hr0 _]; subst. unfold Row.is_empty in Hr0.
    rewrite E, length_app. simpl. nia.
Qed.

Lemma full_rows_nonempty (k : Z) (rs : list (Row.t T)) :
  0 < k -> Forall (fun r => Row.count r = k) rs ->
  Forall (fun r => Row.is_empty r = false) rs.
Proof.
  intros Hk. apply Forall_impl. intros r Hr. unfold Row.is_empty. lia.
Qed.

(** After a call that returns, no row is empty. *)
Lemma exec_no_empty_row (o : op T) s (v : option T) :
  prs_ok s -> fst (exec o s) = Ok v ->
  Forall (fun r => Row.is_empty r = false) (PRS._rows (snd (exec o s))).
Proof.
  intros Hs. pose proof (inv_k _ Hs) as Hk.
  destruct o as [x p| |]; unfold exec, bind.
  - destruct (push_result_cases s x p Hs)
      as [[_ ->] | [(_ & _ & ->) | (Hl & Hp & _)]]; try discriminate.
    destruct (push_accepted s x p Hs Hl Hp)
      as (rs & r & b & Hrows & _ & -> & _).
    intros _. simpl.
    destruct (opened_top _ Hs Hl) as (Ho & _).
    pose proof (inv_full _ Ho _ _ Hrows) as Hfull.
    destruct (opened_fields s) as (Ek & _). rewrite Ek in Hfull.
    pose proof (inv_rows _ Ho) as Hall. rewrite Hrows in Hall.
    apply Forall_app in Hall as [_ Hr].
    inversion Hr as [|? ? Hr0 _]; subst. apply row_of_count in Hr0.
    apply Forall_app. split; [now apply (full_rows_nonempty (PRS.k s))|].
    constructor; [|constructor]. unfold Row.is_empty. simpl. lia.
  - destruct (Z.eq_dec (PRS._size s) 0) as [Hz|Hz].
    + now destruct (peek_pop_empty s Hz) as [_ ->].
    + destruct (peek_pop_nonempty s Hs Hz)
        as (rs & r & i & b & x & Hrows & _ & _ & _ & -> & _ & _).
      intros _. simpl.
      pose proof (inv_full _ (pruned_ok _ Hs) _ _ Hrows) as Hfull.
      destruct (pruned_fields s) as (Ek & _). rewrite Ek in Hfull.
      destruct (Row.is_empty (popped r i b)) eqn:Ee.
      * now apply (full_rows_nonempty (PRS.k s)).
      * apply Forall_app. split; [now apply (full_rows_nonempty (PRS.k s))|].
        now constructor.
  - destruct (Z.eq_dec (PRS._size s) 0) as [Hz|Hz].
    + now destruct (peek_pop_empty s Hz) as [-> _].
    + destruct (peek_pop_nonempty s Hs Hz)
        as (rs & r & i & b & x & _ & _ & _ & -> & _ & _ & _).
      intros _. simpl.
      destruct (pruned_top s Hs Hz) as (rs' & r' & Hrows & Hc & _).
      pose proof (inv_full _ (pruned_ok _ Hs) _ _ Hrows) as Hfull.
      destruct (pruned_fields s) as (Ek & _). rewrite Ek in Hfull.
      rewrite Hrows. apply Forall_app.
      split; [now apply (full_rows_nonempty (PRS.k s))|].
      constructor; [|constructor]. unfold Row.is_empty. lia.
Qed.
End CapacityFacts.

(** X6: the capacity of a bounded stack is [k * m] items.  In every
    reachable state [size() <= k * m] when [m] is set, and a push with a
    priority in [1, n] is accepted exactly when [m] is not set or
    [size() < k * m]. *)
Theorem X6_capacity :
  forall (T : Type) (s : PRS.t T) (x : T) (p : Z),
    reachable s -> 1 <= p <= PRS.n s ->
    (fst (PRS.push x p s) = Ok tt <->
     forall mv, PRS.m s = Some mv -> PRS.size s < PRS.k s * mv) /\
    (forall mv, PRS.m s = Some mv -> PRS.size s <= PRS.k s * mv).
Proof.
  intros T s x p Hr Hp. apply reachable_ok in Hr.
  rewrite <- (at_row_limit_size s Hr). split.
  - destruct (push_result_cases s x p Hr)
      as [[Hl ->] | [(Hl & Hbad & _) | (Hl & _ & -> & _)]].
    + simpl. split; congruence.
    + contradiction.
    + easy.
  - intros mv Hm. destruct (inv_m _ Hr _ Hm) as [_ Hlen].
    pose proof (size_bounds s Hr) as [_ Hb]. pose proof (inv_k _ Hr).
    unfold PRS.rows_count in Hb. nia.
Qed.

Lemma X6_witness :
  reachable (snd (run [Push "a" 2; Push "b" 1] (PRS.mk 2 2 (Some 2) [] 0))) /\
  1 <= 2 <= PRS.n (snd (run [Push "a" 2; Push "b" 1] (PRS.mk 2 2 (Some 2) [] 0))) /\
  (fst (PRS.push "f" 2
          (snd (run [Push "a" 2; Push "b" 1] (PRS.mk 2 2 (Some 2) [] 0))))
   = Ok tt <->
   forall mv,
     PRS.m (snd (run [Push "a" 2; Push "b" 1] (PRS.mk 2 2 (Some 2) [] 0)))
     = Some mv ->
     PRS.size (snd (run [Push "a" 2; Push "b" 1] (PRS.mk 2 2 (Some 2) [] 0)))
     < PRS.k (snd (run [Push "a" 2; Push "b" 1] (PRS.mk 2 2 (Some 2) [] 0)))
       * mv).
Proof.
  assert (Hr : reachable (snd (run [Push "a" 2; Push "b" 1]
                                   (PRS.mk 2 2 (Some 2) [] 0)))).
  { apply run_app_state. apply (reach_new 2 2 (Some 2)). reflexivity. }
  assert (H : 1 <= 2 <= PRS.n (snd (run [Push "a" 2; Push "b" 1]
                                        (PRS.mk 2 2 (Some 2) [] 0))))
    by (simpl; lia).
  split; [exact Hr|]. split; [exact H|].
  apply (X6_capacity string _ "f" 2 Hr H).
Defined.

(** X7: [rows_count()] follows [size()].  In every reachable state
    [k * (rows_count() - 1) <= size() <= k * rows_count()], and after a
    push, pop or peek that returns no row is empty, so that
    [k * (rows_count() - 1) < size()]: the stack has exactly the
    [ceil(size() / k)] rows it needs. *)
Theorem X7_rows_count_follows_size :
  forall (T : Type) (s : PRS.t T),
    reachable s ->
    PRS.k s * (PRS.rows_count s - 1) <= PRS.size s <= PRS.k s * PRS.rows_count s /\
    (forall o v,
        fst (exec o s) = Ok v ->
        let s' := snd (exec o s) in
        Forall (fun r => Row.is_empty r = false) (PRS._rows s') /\
        PRS.k s' * (PRS.rows_count s' - 1) < PRS.size s'
        <= PRS.k s' * PRS.rows_count s').
Proof.
  intros T s Hr. apply reachable_ok in Hr.
  split; [now apply size_bounds|].
  intros o v Hv s'.
  pose proof (exec_no_empty_row o s v Hr Hv) as Hne.
  destruct (exec_ok o s Hr) as [Hok _]. fold s' in Hne, Hok.
  split; [easy|]. split.
  - now apply size_bounds_tight.
  - now apply size_bounds.
Qed.

Lemma X7_witness :
  reachable demo_pruning /\
  fst (exec Peek demo_pruning) = Ok (Some "b") /\
  PRS.k (snd (exec Peek demo_pruning))
  * (PRS.rows_count (snd (exec Peek demo_pruning)) - 1)
  < PRS.size (snd (exec Peek demo_pruning)).
Proof.
  split; [exact demo_pruning_reachable|].
  assert (H : fst (exec Peek demo_pruning) = Ok (Some "b")) by reflexivity.
  split; [exact H|].
  apply (proj2 (X7_rows_count_follows_size string demo_pruning
                  demo_pruning_reachable) Peek (Some "b") H).
Defined.

(** X8: [tolist] reports [size()] items: in every reachable state the
    list it returns has length [size()], and it is empty exactly when
    [is_empty()] holds. *)
Theorem X8_tolist_length :
  forall (T : Type) (s : PRS.t T),
    reachable s ->
    exists l,
      fst (PRS.tolist s) = Ok l /\
      Z.of_nat (length l) = PRS.size s /\
      (l = [] <-> PRS.is_empty s = true).
Proof.
  intros T s Hr. apply reachable_ok in Hr.
  exists (stack_order (PRS._rows s)).
  rewrite (tolist_spec_stack _ Hr). split; [easy|].
  assert (Hlen : Z.of_nat (length (stack_order (PRS._rows s))) = PRS.size s).
  { unfold PRS.size. rewrite (inv_size _ Hr). apply stack_order_length.
    pose proof (inv_rows _ Hr) as H. revert H. apply Forall_impl.
    now intros r (? & _). }
  split; [easy|]. unfold PRS.is_empty. unfold PRS.size in Hlen.
  rewrite Z.eqb_eq, <- Hlen. rewrite <- length_zero_iff_nil. lia.
Qed.

Lemma X8_witness :
  reachable demo /\
  exists l,
    fst (PRS.tolist demo) = Ok l /\
    Z.of_nat (length l) = PRS.size demo /\
    (l = [] <-> PRS.is_empty demo = true).
Proof.
  split; [exact demo_reachable|].
  apply (X8_tolist_length string demo demo_reachable).
Defined.

Section RoundTrip.
Context {T : Type}.
Implicit Types (s : PRS.t T) (r : Row.t T).

Lemma popped_pushed r (x : T) (idx : nat) (b : list T) :
  row_ok r -> nth_error (Row.buckets r) idx = Some b ->
  popped (pushed r x idx b) idx b = r.
Proof.
  intros Hr Hb. destruct r as [k n bs c top]. unfold popped, pushed.
  pose proof (ok_top _ Hr) as Ht.
  simpl in *. rewrite list_set_twice, (list_set_id _ _ _ Hb).
  rewrite <- Ht. f_equal. lia.
Qed.

(** The top row of a stack that is about to take a push at the front:
    every bucket before the one of the priority is empty. *)
Lemma lands_on_top_low s (p : Z) (rs : list (Row.t T)) r :
  prs_ok s -> at_row_limit s = false -> lands_on_top p s = true ->
  PRS._rows (opened s) = rs ++ [r] ->
  match lowest_occupied (Row.buckets r) with
  | None => True
  | Some i => (Z.to_nat (p - 1) <= i)%nat
  end.
Proof.
  intros Hs Hl Hland Hrows.
  destruct (opened_top _ Hs Hl)
    as (_ & rs' & r' & Hrows' & _ & [[Hf E] | (Hf & E & Er)]).
  - rewrite Hrows in Hrows'. apply app_inj_tail in Hrows' as [<- <-].
    unfold lands_on_top in Hland. unfold PRS.no_row_or_top_full in Hf.
    rewrite E, list_top_snoc in *. rewrite Hf in Hland. simpl in Hland.
    pose proof (inv_rows _ Hs) as Hall. rewrite E in Hall.
    apply Forall_app in Hall as [_ Hr].
    inversion Hr as [|? ? (Hok & _) _]; subst.
    rewrite <- (ok_top _ Hok).
    destruct (Row.top_priority_idx r); [|easy].
    now apply Nat.leb_le.
  - rewrite Hrows in Hrows'. apply app_inj_tail in Hrows' as [_ ->].
    rewrite Er. simpl. now rewrite lowest_occupied_fresh.
Qed.

Lemma below_empty r (idx : nat) :
  row_ok r -> (idx < length (Row.buckets r))%nat ->
  match lowest_occupied (Row.buckets r) with
  | None => True
  | Some i => (idx <= i)%nat
  end ->
  forall j, (j < idx)%nat -> nth_error (Row.buckets r) j = Some [].
Proof.
  intros Hr Hidx Hlow j Hj.
  destruct (lowest_occupied (Row.buckets r)) as [i|] eqn:E.
  - apply (lowest_occupied_below _ i); [easy | lia].
  - apply lowest_occupied_none_nth; [easy | lia].
Qed.

Lemma pruned_nonempty_top s :
  PRS.top_row_is_empty s = false -> pruned s = s.
Proof.
  unfold PRS.top_row_is_empty, pruned.
  destruct (snoc_cases (PRS._rows s)) as [E | (rs & r & E)]; rewrite E.
  - reflexivity.
  - rewrite list_top_snoc, list_pop_snoc. now intros ->.
Qed.

Lemma pruned_idem s : prs_ok s -> pruned (pruned s) = pruned s.
Proof.
  intros Hs. apply pruned_nonempty_top.
  destruct (prune_rows_exits s) as [_ H].
  now rewrite (prune_spec _ Hs) in H.
Qed.

Lemma push_then_pop s (x : T) (p : Z) :
  prs_ok s -> fst (PRS.push x p s) = Ok tt -> lands_on_top p s = true ->
  PRS.peek (snd (PRS.push x p s)) = (Ok x, snd (PRS.push x p s)) /\
  PRS.pop (snd (PRS.push x p s)) = (Ok x, pruned s) /\
  stack_order (PRS._rows (snd (PRS.push x p s)))
  = x :: stack_order (PRS._rows s).
Proof.
  intros Hs Hacc Hland.
  destruct (push_result_cases s x p Hs)
    as [[_ E] | [(_ & _ & E) | (Hl & Hp & _)]];
    try (rewrite E in Hacc; discriminate).
  destruct (push_accepted s x p Hs Hl Hp)
    as (rs & r & b & Hrows & Hb & Hpush & Hok1).
  rewrite Hpush. cbn [snd].
  set (idx := Z.to_nat (p - 1)) in *.
  set (s1 := pushed_stack s rs (pushed r x idx b)) in *.
  pose proof (opened_top _ Hs Hl) as (Ho & _).
  pose proof (inv_rows _ Ho) as Hall. rewrite Hrows in Hall.
  apply Forall_app in Hall as [_ Hr].
  inversion Hr as [|? ? (Hrok & _) _]; subst.
  pose proof (lands_on_top_low s p rs r Hs Hl Hland Hrows) as Hlow.
  fold idx in Hlow.
  assert (Hidx : (idx < length (Row.buckets r))%nat)
    by (apply nth_error_Some; now rewrite Hb).
  assert (Hcr : 0 <= Row.count r)
    by (rewrite (ok_count _ Hrok); lia).
  (* the pushed row is at the top and not empty *)
  assert (Hpr : pruned s1 = s1).
  { apply pruned_nonempty_top. unfold PRS.top_row_is_empty, s1. simpl.
    rewrite list_top_snoc. unfold Row.is_empty. simpl. lia. }
  assert (Hsz : PRS._size s1 <> 0).
  { unfold s1. simpl. pose proof (size_nonneg s Hs). lia. }
  destruct (peek_pop_nonempty s1 Hok1 Hsz)
    as (rs' & r1 & i & b' & y & Hrows1 & Hlow1 & Hnth1 & Hpeek & Hpop & _).
  rewrite Hpr in Hrows1, Hpeek. unfold s1 in Hrows1 at 1. simpl in Hrows1.
  apply app_inj_tail in Hrows1 as [<- <-].
  simpl in Hlow1, Hnth1.
  rewrite (lowest_occupied_append _ _ _ x Hb) in Hlow1.
  assert (i = idx) as ->.
  { destruct (lowest_occupied (Row.buckets r)) as [top|].
    - destruct (idx <? top)%nat eqn:E; [congruence|].
      apply Nat.ltb_ge in E. injection Hlow1 as <-. lia.
    - congruence. }
  rewrite list_set_same in Hnth1 by easy.
  injection Hnth1 as Hnth1. apply app_inj_tail in Hnth1 as [<- <-].
  split; [exact Hpeek|]. split.
  - rewrite Hpop, (popped_pushed r x idx b Hrok Hb).
    unfold popped_stack, s1, pushed_stack. simpl.
    replace (PRS._size s + 1 - 1) with (PRS._size s) by lia.
    destruct (opened_top _ Hs Hl)
      as (_ & rs' & r' & Hrows' & _ & [[Hf E] | (Hf & E & Er)]);
      rewrite Hrows in Hrows'; apply app_inj_tail in Hrows' as [<- <-].
    + unfold pruned. rewrite E, list_pop_snoc.
      destruct (Row.is_empty r); [reflexivity|].
      rewrite <- E. now destruct s.
    + rewrite Er. unfold Row.is_empty at 1. simpl.
      rewrite pruned_nonempty_top; [now (rewrite <- E; destruct s)|].
      unfold PRS.no_row_or_top_full in Hf. unfold PRS.top_row_is_empty.
      destruct (list_top (PRS._rows s)) as [r0|] eqn:Et; [|easy].
      unfold Row.is_full in Hf. unfold Row.is_empty.
      pose proof (inv_k _ Hs) as Hk.
      pose proof (inv_rows _ Hs) as Hall.
      destruct (top_cases s) as [[E0 Et0] | (l0 & r1 & E0 & Et0)];
        [congruence|].
      rewrite Et in Et0. injection Et0 as <-. rewrite E0 in Hall.
      apply Forall_app in Hall as [_ Hr0].
      inversion Hr0 as [|? ? (_ & Hk0 & _) _]; subst. lia.
  - unfold s1. simpl. rewrite stack_order_snoc. simpl.
    rewrite (pop_order_push_front _ _ _ x Hb
               (below_empty r idx Hrok Hidx Hlow)).
    simpl. f_equal.
    now rewrite <- (opened_order s Hs), Hrows, stack_order_snoc.
Qed.

Lemma peek_then_pop s :
  prs_ok s ->
  PRS.pop (snd (PRS.peek s)) = PRS.pop s /\
  PRS.peek (snd (PRS.peek s)) = (fst (PRS.peek s), snd (PRS.peek s)) /\
  fst (PRS.peek s) = fst (PRS.pop s).
Proof.
  intros Hs. destruct (Z.eq_dec (PRS._size s) 0) as [Hz|Hz].
  - destruct (peek_pop_empty s Hz) as [Hpeek Hpop].
    rewrite Hpeek. cbn [fst snd]. now rewrite Hpeek, Hpop.
  - destruct (peek_pop_nonempty s Hs Hz)
      as (rs & r & i & b & x & Hrows & Hlow & Hnth & Hpeek & Hpop & _).
    rewrite Hpeek, Hpop. cbn [fst snd].
    pose proof (pruned_ok _ Hs) as Hp.
    destruct (pruned_fields s) as (Ek & En & Em & Esz).
    assert (Hz' : PRS._size (pruned s) <> 0) by now rewrite Esz.
    destruct (peek_pop_nonempty (pruned s) Hp Hz')
      as (rs' & r' & i' & b' & y & Hrows' & Hlow' & Hnth' & Hpeek' & Hpop' & _).
    rewrite (pruned_idem s Hs) in Hrows', Hpeek'.
    rewrite Hrows in Hrows'. apply app_inj_tail in Hrows' as [<- <-].
    rewrite Hlow in Hlow'. injection Hlow' as <-.
    rewrite Hnth in Hnth'. injection Hnth' as Hnth'.
    apply app_inj_tail in Hnth' as [<- <-].
    split; [|now split].
    rewrite Hpop'. unfold popped_stack. now rewrite Ek, En, Em, Esz.
Qed.
End RoundTrip.

(** X9: push then pop is a round trip.  In a reachable state let a push
    be accepted that opens a new row or whose priority is at least as
    urgent as everything in the top row ([lands_on_top]).  Then [peek]
    returns the pushed item without changing the stack, the snapshot is
    the item followed by the old snapshot, and [pop] returns the item and
    leaves the stack exactly as it was before the push, less the empty
    row at the top if there was one. *)
Theorem X9_push_pop_round_trip :
  forall (T : Type) (s : PRS.t T) (x : T) (p : Z),
    reachable s ->
    fst (PRS.push x p s) = Ok tt ->
    lands_on_top p s = true ->
    let s1 := snd (PRS.push x p s) in
    PRS.peek s1 = (Ok x, s1) /\
    (exists l, fst (PRS.tolist s) = Ok l /\ fst (PRS.tolist s1) = Ok (x :: l)) /\
    PRS.pop s1 = (Ok x, snd (PRS.prune_rows s)) /\
    (PRS.top_row_is_empty s = false -> PRS.pop s1 = (Ok x, s)).
Proof.
  intros T s x p Hr Hacc Hland s1. apply reachable_ok in Hr.
  destruct (push_then_pop s x p Hr Hacc Hland) as (Hpeek & Hpop & Hord).
  fold s1 in Hpeek, Hpop, Hord.
  destruct (exec_ok (Push x p) s Hr) as [Hok1 _].
  assert (E1 : snd (exec (Push x p) s) = s1).
  { unfold exec, bind, s1. now destruct (PRS.push x p s) as [[] ?]. }
  rewrite E1 in Hok1.
  split; [exact Hpeek|]. split; [|split].
  - exists (stack_order (PRS._rows s)).
    rewrite (tolist_spec_stack _ Hr), (tolist_spec_stack _ Hok1).
    cbn [fst]. now rewrite Hord.
  - now rewrite (prune_spec _ Hr).
  - intros Hne. now rewrite Hpop, pruned_nonempty_top.
Qed.

Lemma X9_witness :
  reachable demo /\
  fst (PRS.push "f" 1 demo) = Ok tt /\
  lands_on_top 1 demo = true /\
  PRS.peek (snd (PRS.push "f" 1 demo)) = (Ok "f", snd (PRS.push "f" 1 demo)).
Proof.
  split; [exact demo_reachable|].
  assert (H1 : fst (PRS.push "f" 1 demo) = Ok tt) by reflexivity.
  assert (H2 : lands_on_top 1 demo = true) by reflexivity.
  split; [exact H1|]. split; [exact H2|].
  apply (X9_push_pop_round_trip string demo "f" 1 demo_reachable H1 H2).
Defined.

(** X10: [peek] announces [pop].  In every reachable state [peek]
    returns what [pop] returns (the same item, or [EmptyError]); a
    second [peek] returns the same and changes nothing more; a [pop]
    after the [peek] behaves exactly as a [pop] without it.  [peek] is
    not read-only: it prunes, so [rows_count()] may drop by one, while
    [size()] and the snapshot are unchanged. *)
Theorem X10_peek_announces_pop :
  forall (T : Type) (s : PRS.t T),
    reachable s ->
    let s' := snd (PRS.peek s) in
    fst (PRS.peek s) = fst (PRS.pop s) /\
    PRS.peek s' = (fst (PRS.peek s), s') /\
    PRS.pop s' = PRS.pop s /\
    PRS.size s' = PRS.size s /\
    fst (PRS.tolist s') = fst (PRS.tolist s) /\
    PRS.rows_count s - 1 <= PRS.rows_count s' <= PRS.rows_count s.
Proof.
  intros T s Hr s'. apply reachable_ok in Hr.
  destruct (peek_then_pop s Hr) as (H1 & H2 & H3). fold s' in H1, H2.
  split; [easy|]. split; [easy|]. split; [easy|].
  destruct (exec_ok Peek s Hr) as [Hok Hsz].
  assert (E : snd (exec Peek s) = s').
  { unfold exec, bind, s'. now destruct (PRS.peek s) as [[] ?]. }
  rewrite E in Hok.
  assert (Hcases : s' = s \/ s' = pruned s).
  { unfold s'. destruct (Z.eq_dec (PRS._size s) 0) as [Hz|Hz].
    - destruct (peek_pop_empty s Hz) as [-> _]. now left.
    - destruct (peek_pop_nonempty s Hr Hz)
        as (rs & r & i & b & x & _ & _ & _ & -> & _). now right. }
  destruct Hcases as [-> | ->].
  - repeat split; lia.
  - destruct (pruned_fields s) as (_ & _ & _ & Esz).
    split; [exact Esz|]. split.
    + rewrite (tolist_spec_stack _ Hok), (tolist_spec_stack _ Hr).
      cbn [fst]. now rewrite pruned_order.
    + unfold PRS.rows_count, pruned.
      destruct (snoc_cases (PRS._rows s)) as [E0 | (rs & r & E0)]; rewrite E0.
      * simpl. rewrite E0. simpl. lia.
      * rewrite list_pop_snoc. destruct (Row.is_empty r).
        -- simpl. rewrite length_app. simpl. lia.
        -- rewrite E0. lia.
Qed.

Lemma X10_witness :
  reachable demo_pruning /\
  PRS.pop (snd (PRS.peek demo_pruning)) = PRS.pop demo_pruning.
Proof.
  split; [exact demo_pruning_reachable|].
  apply (X10_peek_announces_pop string demo_pruning demo_pruning_reachable).
Defined.

(** * The schedulers *)

Lemma push_valid {T} (s : PRS.t T) (x : T) (p : Z) :
  prs_ok s -> 1 <= p <= PRS.n s ->
  (forall mv, PRS.m s = Some mv -> PRS._size s < PRS.k s * mv) ->
  exists s',
    PRS.push x p s = (Ok tt, s') /\ prs_ok s' /\
    PRS._size s' = PRS._size s + 1 /\
    PRS.k s' = PRS.k s /\ PRS.n s' = PRS.n s /\ PRS.m s' = PRS.m s /\
    Permutation (stack_order (PRS._rows s')) (x :: stack_order (PRS._rows s)) /\
    (lands_on_top p s = true ->
     stack_order (PRS._rows s') = x :: stack_order (PRS._rows s)).
Proof.
  intros Hs Hp Hcap. apply (at_row_limit_size s Hs) in Hcap.
  destruct (push_accepted s x p Hs Hcap Hp)
    as (rs & r & b & Hrows & Hb & Hpush & Hok).
  eexists. split; [exact Hpush|]. split; [exact Hok|].
  simpl. repeat (split; [reflexivity|]). split.
  - rewrite stack_order_snoc. simpl.
    rewrite <- (opened_order s Hs), Hrows, stack_order_snoc.
    rewrite (Permutation_app_tail _ (pop_order_push _ _ _ x Hb)).
    reflexivity.
  - intros Hland.
    assert (Hacc : fst (PRS.push x p s) = Ok tt) by now rewrite Hpush.
    destruct (push_then_pop s x p Hs Hacc Hland) as (_ & _ & Hord).
    now rewrite Hpush in Hord.
Qed.

Lemma push_all_valid (jobs : list Job) (s : PRS.t Job) :
  prs_ok s ->
  Forall (fun job => 1 <= job_priority job <= PRS.n s) jobs ->
  (forall mv, PRS.m s = Some mv ->
              PRS._size s + Z.of_nat (length jobs) <= PRS.k s * mv) ->
  exists s',
    push_all jobs s = (Ok tt, s') /\ prs_ok s' /\
    PRS._size s' = PRS._size s + Z.of_nat (length jobs) /\
    Permutation (stack_order (PRS._rows s')) (jobs ++ stack_order (PRS._rows s)) /\
    (PRS.n s = 1 ->
     stack_order (PRS._rows s') = rev jobs ++ stack_order (PRS._rows s)).
Proof.
  revert s; induction jobs as [|job jobs IH]; intros s Hs Hall Hcap.
  - exists s. simpl. split; [reflexivity|]. split; [easy|].
    split; [lia|]. split; [reflexivity | easy].
  - inversion Hall as [|? ? Hp Hrest]; subst.
    destruct (push_valid s job (job_priority job) Hs Hp)
      as (s1 & Hpush & Hok1 & Hsz1 & Hk1 & Hn1 & Hm1 & Hperm & Hfront).
    { intros mv Hm. specialize (Hcap _ Hm). simpl length in Hcap. lia. }
    destruct (IH s1 Hok1) as (s' & Hall' & Hok' & Hsz' & Hperm' & Hrev).
    { now rewrite Hn1. }
    { intros mv Hm. rewrite Hm1 in Hm. specialize (Hcap _ Hm).
      rewrite Hsz1, Hk1. simpl length in Hcap. lia. }
    exists s'. cbn [push_all]. unfold bind. rewrite Hpush, Hall'.
    split; [easy|]. split; [easy|]. split; [simpl length; lia|]. split.
    + rewrite Hperm', Hperm. simpl. symmetry. apply Permutation_middle.
    + intros H1. rewrite Hrev by now rewrite Hn1.
      rewrite Hfront.
      * simpl. now rewrite <- app_assoc.
      * unfold lands_on_top.
        destruct (list_top (PRS._rows s)) as [r|]; [|easy].
        replace (job_priority job) with 1 by lia. simpl.
        destruct (Row.top_priority_idx r); [|now rewrite orb_true_r].
        now rewrite orb_true_r.
Qed.

Lemma push_all_bad_priority (jobs : list Job) (s : PRS.t Job) :
  prs_ok s -> PRS.m s = None ->
  Exists (fun job => ~ (1 <= job_priority job <= PRS.n s)) jobs ->
  fst (push_all jobs s) = Raise PriorityError.
Proof.
  revert s; induction jobs as [|job jobs IH]; intros s Hs Hm Hex.
  - inversion Hex.
  - cbn [push_all]. unfold bind.
    destruct (Z_le_dec 1 (job_priority job)) as [H1|H1];
      [destruct (Z_le_dec (job_priority job) (PRS.n s)) as [H2|H2]|].
    + destruct (push_valid s job (job_priority job) Hs (conj H1 H2))
        as (s1 & -> & Hok1 & _ & _ & Hn1 & Hm1 & _).
      { intros mv Hmv. congruence. }
      apply IH; [easy | congruence |].
      inversion Hex as [? ? Hbad | ? ? Hrest]; subst; [lia|].
      now rewrite Hn1.
    + rewrite push_bad_priority_stack; [easy | easy | | lia].
      apply at_row_limit_size; [easy|]. intros mv Hmv. congruence.
    + rewrite push_bad_priority_stack; [easy | easy | | lia].
      apply at_row_limit_size; [easy|]. intros mv Hmv. congruence.
Qed.

Lemma push_all_overflow (jobs : list Job) (s : PRS.t Job) (mv : Z) :
  prs_ok s -> PRS.m s = Some mv ->
  Forall (fun job => 1 <= job_priority job <= PRS.n s) jobs ->
  PRS.k s * mv < PRS._size s + Z.of_nat (length jobs) ->
  fst (push_all jobs s) = Raise PRSError.
Proof.
  revert s; induction jobs as [|job jobs IH]; intros s Hs Hm Hall Hover.
  - simpl in Hover. destruct (inv_m _ Hs _ Hm) as [_ Hlen].
    pose proof (size_bounds s Hs) as [_ Hb]. pose proof (inv_k _ Hs).
    unfold PRS.rows_count, PRS.size in Hb. nia.
  - inversion Hall as [|? ? Hp Hrest]; subst.
    cbn [push_all]. unfold bind.
    destruct (Z_lt_dec (PRS._size s) (PRS.k s * mv)) as [Hlt|Hge].
    + destruct (push_valid s job (job_priority job) Hs Hp)
        as (s1 & -> & Hok1 & Hsz1 & Hk1 & Hn1 & Hm1 & _).
      { intros mv' Hmv'. congruence. }
      apply (IH s1 Hok1); [congruence | now rewrite Hn1 |].
      rewrite Hk1, Hsz1. simpl length in Hover. lia.
    + rewrite push_row_limit; [easy | easy |].
      destruct (at_row_limit s) eqn:Hl; [easy|].
      pose proof (proj1 (at_row_limit_size s Hs) Hl _ Hm). lia.
Qed.

Lemma pop_all_more_fuel {T} (fuel : nat) (s : PRS.t T) :
  prs_ok s -> PRS._size s = Z.of_nat fuel ->
  option_map fst (pop_all fuel s) = Some (Ok (stack_order (PRS._rows s))).
Proof.
  intros Hs Hsz. destruct (pop_all_spec fuel s Hs Hsz) as (s' & -> & _).
  reflexivity.
Qed.

(** X11: [run_prs] completes every job exactly once, or fails cleanly.
    With [k > 0], [n > 0], every job priority in [1, n], and [m] unset
    or [len(jobs) <= k * m], it returns a completion order that is a
    permutation of [jobs] (its [while] loop ends within [len(jobs)]
    pops).  Invalid constructor arguments give [ValueError]; with [m]
    unset, a job with a priority outside [1, n] gives [PriorityError];
    with valid priorities, more than [k * m] jobs give the row-limit
    [PRSError]. *)
Theorem X11_run_prs :
  forall (jobs : list Job) (k n : Z) (m : option Z),
    (k <= 0 \/ n <= 0 \/ (exists mv, m = Some mv /\ mv <= 0) ->
     run_prs jobs k n m = Some (Raise ValueError)) /\
    (0 < k -> 0 < n ->
     (Forall (fun job => 1 <= job_priority job <= n) jobs ->
      (forall mv, m = Some mv ->
                  0 < mv /\ Z.of_nat (length jobs) <= k * mv) ->
      exists out,
        run_prs jobs k n m = Some (Ok out) /\ Permutation jobs out) /\
     (m = None ->
      Exists (fun job => ~ (1 <= job_priority job <= n)) jobs ->
      run_prs jobs k n m = Some (Raise PriorityError)) /\
     (forall mv,
         m = Some mv -> 0 < mv ->
         Forall (fun job => 1 <= job_priority job <= n) jobs ->
         k * mv < Z.of_nat (length jobs) ->
         run_prs jobs k n m = Some (Raise PRSError))).
Proof.
  intros jobs k n m. unfold run_prs. rewrite new_spec_stack. split.
  - intros [H | [H | (mv & -> & H)]].
    + now replace (k <=? 0) with true by lia.
    + replace (n <=? 0) with true by lia. now rewrite orb_true_r.
    + replace (mv <=? 0) with true by lia. now rewrite orb_true_r.
  - intros Hk Hn.
    replace (k <=? 0) with false by lia. replace (n <=? 0) with false by lia.
    simpl.
    assert (Hnew : forall m0,
               (forall mv, m0 = Some mv -> 0 < mv) ->
               prs_ok (@PRS.mk Job k n m0 [] 0)).
    { intros m0 Hm0. split; simpl; auto; try lia.
      - intros mv Hmv. specialize (Hm0 _ Hmv). lia.
      - intros [|] ? ?; discriminate. }
    split; [|split].
    + intros Hall Hcap.
      assert (Hm : match m with Some mv => mv <=? 0 | None => false end = false).
      { destruct m as [mv|]; [|easy]. destruct (Hcap _ eq_refl). lia. }
      rewrite Hm.
      assert (H0 : prs_ok (@PRS.mk Job k n m [] 0)).
      { apply Hnew. intros mv Hmv. now destruct (Hcap _ Hmv). }
      destruct (push_all_valid jobs _ H0) as (s' & -> & Hok & Hsz & Hperm & _).
      * exact Hall.
      * simpl. intros mv Hmv. destruct (Hcap _ Hmv). lia.
      * simpl in Hsz, Hperm. rewrite app_nil_r in Hperm.
        exists (stack_order (PRS._rows s')).
        split; [now apply pop_all_more_fuel | now symmetry].
    + intros -> Hex.
      assert (H0 : prs_ok (@PRS.mk Job k n None [] 0))
        by (apply Hnew; discriminate).
      pose proof (push_all_bad_priority jobs _ H0 eq_refl Hex) as H.
      destruct (push_all jobs (PRS.mk k n None [] 0)) as [[] ?];
        simpl in H; congruence.
    + intros mv -> Hmv Hall Hover.
      replace (mv <=? 0) with false by lia.
      assert (H0 : prs_ok (@PRS.mk Job k n (Some mv) [] 0))
        by (apply Hnew; intros ? [= <-]; easy).
      pose proof (push_all_overflow jobs _ mv H0 eq_refl Hall) as H.
      simpl in H. specialize (H ltac:(lia)).
      destruct (push_all jobs (PRS.mk k n (Some mv) [] 0)) as [[] ?];
        simpl in H; congruence.
Qed.

Lemma X11_witness :
  0 < 2 /\ 0 < 2 /\
  Forall (fun job => 1 <= job_priority job <= 2)
         [Build_Job "job-1" 2 0; Build_Job "job-2" 1 1; Build_Job "job-3" 2 2] /\
  (forall mv, Some 2 = Some mv -> 0 < mv /\ Z.of_nat 3 <= 2 * mv) /\
  exists out,
    run_prs [Build_Job "job-1" 2 0; Build_Job "job-2" 1 1;
             Build_Job "job-3" 2 2] 2 2 (Some 2)
    = Some (Ok out) /\
    Permutation [Build_Job "job-1" 2 0; Build_Job "job-2" 1 1;
                 Build_Job "job-3" 2 2] out.
Proof.
  assert (H1 : 0 < 2) by lia.
  assert (H2 : Forall (fun job => 1 <= job_priority job <= 2)
                 [Build_Job "job-1" 2 0; Build_Job "job-2" 1 1;
                  Build_Job "job-3" 2 2])
    by (repeat constructor; simpl; lia).
  assert (H3 : forall mv, Some 2 = Some mv -> 0 < mv /\ Z.of_nat 3 <= 2 * mv).
  { intros mv E. injection E as <-. simpl. lia. }
  split; [exact H1|]. split; [exact H1|]. split; [exact H2|].
  split; [exact H3|].
  apply (proj1 (proj2 (X11_run_prs _ 2 2 (Some 2)) H1 H1) H2 H3).
Defined.

Lemma stack_drain_spec {A} (st out : list A) (fuel : nat) :
  (length st <= fuel)%nat ->
  stack_drain fuel st out = Some (out ++ rev st).
Proof.
  revert st out; induction fuel as [|fuel IH]; intros st out Hlen.
  - destruct st; [|simpl in Hlen; lia]. simpl. now rewrite app_nil_r.
  - destruct (snoc_cases st) as [-> | (st' & x & ->)].
    + simpl. now rewrite app_nil_r.
    + cbn [stack_drain]. rewrite list_pop_snoc.
      rewrite IH, rev_unit, <- app_assoc; [easy|].
      rewrite length_app in Hlen. simpl in Hlen. lia.
Qed.

Lemma fold_append {A} (l acc : list A) :
  fold_left (fun st x => st ++ [x]) l acc = acc ++ l.
Proof.
  revert acc; induction l as [|x l IH]; intros acc; simpl.
  - now rewrite app_nil_r.
  - now rewrite IH, <- app_assoc.
Qed.

(** X12: with a single priority level the Priority Row Stack is a plain
    stack.  [run_stack(jobs)] returns [jobs] reversed, and for [n = 1],
    [k > 0], jobs all of priority 1 and [m] unset or large enough,
    [run_prs] returns the same order, whatever the row capacity [k]. *)
Theorem X12_one_level_is_a_stack :
  forall (jobs : list Job) (k : Z) (m : option Z),
    run_stack jobs = Some (rev jobs) /\
    (0 < k ->
     Forall (fun job => job_priority job = 1) jobs ->
     (forall mv, m = Some mv ->
                 0 < mv /\ Z.of_nat (length jobs) <= k * mv) ->
     run_prs jobs k 1 m = option_map Ok (run_stack jobs)).
Proof.
  intros jobs k m.
  assert (Hst : run_stack jobs = Some (rev jobs)).
  { unfold run_stack. rewrite fold_append. simpl.
    now rewrite stack_drain_spec by lia. }
  split; [exact Hst|]. intros Hk Hall Hcap. rewrite Hst. simpl.
  unfold run_prs. rewrite new_spec_stack.
  replace (k <=? 0) with false by lia. simpl.
  assert (Hm : match m with Some mv => mv <=? 0 | None => false end = false).
  { destruct m as [mv|]; [|easy]. destruct (Hcap _ eq_refl). lia. }
  rewrite Hm.
  assert (H0 : prs_ok (@PRS.mk Job k 1 m [] 0)).
  { split; simpl; auto; try lia.
    - intros mv Hmv. destruct (Hcap _ Hmv). lia.
    - intros [|] ? ?; discriminate. }
  destruct (push_all_valid jobs _ H0) as (s' & -> & Hok & Hsz & _ & Hrev).
  - simpl. revert Hall. apply Forall_impl. intros job ->. lia.
  - simpl. intros mv Hmv. destruct (Hcap _ Hmv). lia.
  - simpl in Hsz, Hrev. rewrite pop_all_more_fuel by easy.
    rewrite Hrev by easy. now rewrite app_nil_r.
Qed.

Lemma X12_witness :
  0 < 2 /\
  Forall (fun job => job_priority job = 1)
         [Build_Job "job-1" 1 0; Build_Job "job-2" 1 1; Build_Job "job-3" 1 2] /\
  run_prs [Build_Job "job-1" 1 0; Build_Job "job-2" 1 1; Build_Job "job-3" 1 2]
          2 1 None
  = option_map Ok
      (run_stack [Build_Job "job-1" 1 0; Build_Job "job-2" 1 1;
                  Build_Job "job-3" 1 2]).
Proof.
  assert (H1 : 0 < 2) by lia.
  assert (H2 : Forall (fun job => job_priority job = 1)
                 [Build_Job "job-1" 1 0; Build_Job "job-2" 1 1;
                  Build_Job "job-3" 1 2])
    by (repeat constructor).
  split; [exact H1|]. split; [exact H2|].
  apply (proj2 (X12_one_level_is_a_stack _ 2 None) H1 H2).
  intros mv H. discriminate H.
Defined.

Section Groups.
Context {T : Type} (pr : T -> Z).
Implicit Types (s : PRS.t T) (groups : list (list T)).

Lemma rows_hold_order (k n : Z) (rows : list (Row.t T)) groups :
  rows_hold pr k n rows groups ->
  stack_order rows
  = concat (map (fun g => by_priority n (entries pr g)) (rev groups)).
Proof.
  intros H. unfold stack_order. rewrite !map_rev. f_equal. f_equal.
  induction H as [|r g rows groups Hm _ IH]; simpl; [easy|].
  rewrite IH. f_equal.
  rewrite (m_buckets _ _ _ _ Hm). unfold pop_order, by_priority.
  now rewrite map_map.
Qed.

Lemma rows_hold_sizes (k n : Z) (rows : list (Row.t T)) groups :
  rows_hold pr k n rows groups ->
  map Row.count rows = map (fun g => Z.of_nat (length g)) groups.
Proof.
  induction 1 as [|r g rows groups Hm _ IH]; simpl; [easy|].
  rewrite IH, (m_count _ _ _ _ Hm). unfold entries.
  now rewrite length_map.
Qed.

(** An accepted push adds its item to the last group, or starts a group. *)
Lemma push_groups s (x : T) groups :
  prs_ok s -> 1 <= pr x <= PRS.n s ->
  (forall mv, PRS.m s = Some mv -> PRS._size s < PRS.k s * mv) ->
  rows_hold pr (PRS.k s) (PRS.n s) (PRS._rows s) groups ->
  Forall (fun g => g <> []) groups ->
  exists groups',
    rows_hold pr (PRS.k s) (PRS.n s)
              (PRS._rows (snd (PRS.push x (pr x) s))) groups' /\
    concat groups' = concat groups ++ [x] /\
    Forall (fun g => g <> []) groups'.
Proof.
  intros Hs Hp Hcap Hold Hne.
  apply (at_row_limit_size s Hs) in Hcap.
  destruct (push_accepted s x (pr x) Hs Hcap Hp)
    as (rs & r & b & Hrows & Hb & -> & _).
  cbn [snd pushed_stack PRS._rows].
  set (k := PRS.k s) in *. set (n := PRS.n s) in *.
  assert (Hfrom : exists gs g,
             Forall2 (fun r g => models k n r (entries pr g)) rs gs /\
             models k n r (entries pr g) /\
             concat (gs ++ [g]) = concat groups /\
             Forall (fun g => g <> []) gs /\ Row.count r < k).
  { destruct (opened_top _ Hs Hcap)
      as (_ & rs' & r' & Hrows' & Hroom & [[_ E] | (_ & E & Er)]);
      rewrite Hrows in Hrows'; apply app_inj_tail in Hrows' as [<- <-].
    - unfold rows_hold in Hold. rewrite E in Hold.
      apply Forall2_app_inv_l in Hold as (gs & g1 & Hgs & Hg1 & ->).
      inversion Hg1 as [|? g ? ? Hm Hnil]; subst. inversion Hnil; subst.
      exists gs, g. apply Forall_app in Hne as [Hne _]. easy.
    - exists groups, []. rewrite <- E. split; [exact Hold|]. split.
      + rewrite Er. apply models_new. rewrite new_spec.
        pose proof (inv_k _ Hs). pose proof (inv_n _ Hs).
        now replace ((k <=? 0) || (n <=? 0)) with false
          by (symmetry; apply orb_false_iff; unfold k, n; lia).
      + rewrite concat_app. simpl. now rewrite !app_nil_r. }
  destruct Hfrom as (gs & g & Hgs & Hm & Hcat & Hgne & Hroom).
  exists (gs ++ [g ++ [x]]). split; [|split].
  - apply Forall2_app; [exact Hgs|]. constructor; [|constructor].
    pose proof (models_step k n (RPush x (pr x)) r _ Hm) as Hstep.
    assert (E1 : snd (row_exec (RPush x (pr x)) r)
                 = pushed r x (Z.to_nat (pr x - 1)) b).
    { unfold row_exec, bind.
      destruct (push_accepts r x (pr x) (m_ok _ _ _ _ Hm))
        as (b' & Hb' & -> & _).
      - now rewrite (m_n _ _ _ _ Hm).
      - now rewrite (m_k _ _ _ _ Hm).
      - simpl. congruence. }
    assert (E2 : spec_step k n (RPush x (pr x)) (entries pr g)
                 = entries pr (g ++ [x])).
    { simpl. unfold RowSpec.push.
      rewrite <- (m_count _ _ _ _ Hm).
      replace ((1 <=? pr x) && (pr x <=? n) && (Row.count r <? k)) with true.
      - unfold entries. now rewrite map_app.
      - symmetry. rewrite !andb_true_iff. unfold n. lia. }
    now rewrite E1, E2 in Hstep.
  - rewrite concat_app in *. simpl in *. rewrite app_nil_r in *.
    now rewrite <- Hcat, <- app_assoc.
  - apply Forall_app. split; [easy|]. constructor; [|constructor].
    now destruct g.
Qed.
End Groups.

Lemma push_all_groups (jobs : list Job) (s : PRS.t Job)
  (groups : list (list Job)) :
  prs_ok s ->
  Forall (fun job => 1 <= job_priority job <= PRS.n s) jobs ->
  (forall mv, PRS.m s = Some mv ->
              PRS._size s + Z.of_nat (length jobs) <= PRS.k s * mv) ->
  rows_hold job_priority (PRS.k s) (PRS.n s) (PRS._rows s) groups ->
  Forall (fun g => g <> []) groups ->
  exists groups',
    rows_hold job_priority (PRS.k s) (PRS.n s)
              (PRS._rows (snd (push_all jobs s))) groups' /\
    concat groups' = concat groups ++ jobs /\
    Forall (fun g => g <> []) groups'.
Proof.
  revert s groups; induction jobs as [|job jobs IH];
    intros s groups Hs Hall Hcap Hold Hne.
  - exists groups. simpl. now rewrite app_nil_r.
  - inversion Hall as [|? ? Hp Hrest]; subst.
    assert (Hroom : forall mv, PRS.m s = Some mv ->
                               PRS._size s < PRS.k s * mv).
    { intros mv Hm. specialize (Hcap _ Hm). simpl length in Hcap. lia. }
    destruct (push_groups job_priority s job groups Hs Hp Hroom Hold Hne)
      as (groups1 & Hold1 & Hcat1 & Hne1).
    destruct (push_valid s job (job_priority job) Hs Hp Hroom)
      as (s1 & Hpush & Hok1 & Hsz1 & Hk1 & Hn1 & Hm1 & _).
    rewrite Hpush in Hold1. cbn [snd] in Hold1.
    destruct (IH s1 groups1 Hok1) as (groups' & Hold' & Hcat' & Hne').
    + now rewrite Hn1.
    + intros mv Hm. rewrite Hm1 in Hm. specialize (Hcap _ Hm).
      rewrite Hsz1, Hk1. simpl length in Hcap. lia.
    + now rewrite Hk1, Hn1.
    + exact Hne1.
    + exists groups'. cbn [push_all]. unfold bind. rewrite Hpush.
      rewrite Hk1, Hn1 in Hold'. split; [exact Hold'|]. split; [|exact Hne'].
      rewrite Hcat', Hcat1. now rewrite <- app_assoc.
Qed.

Lemma push_all_k (jobs : list Job) (s : PRS.t Job) :
  prs_ok s ->
  Forall (fun job => 1 <= job_priority job <= PRS.n s) jobs ->
  (forall mv, PRS.m s = Some mv ->
              PRS._size s + Z.of_nat (length jobs) <= PRS.k s * mv) ->
  PRS.k (snd (push_all jobs s)) = PRS.k s.
Proof.
  revert s; induction jobs as [|job jobs IH]; intros s Hs Hall Hcap; [easy|].
  inversion Hall as [|? ? Hp Hrest]; subst.
  destruct (push_valid s job (job_priority job) Hs Hp)
    as (s1 & Hpush & Hok1 & Hsz1 & Hk1 & Hn1 & Hm1 & _).
  { intros mv Hm. specialize (Hcap _ Hm). simpl length in Hcap. lia. }
  cbn [push_all]. unfold bind. rewrite Hpush, <- Hk1. apply IH; [easy | |].
  - now rewrite Hn1.
  - intros mv Hm. rewrite Hm1 in Hm. specialize (Hcap _ Hm).
    rewrite Hsz1, Hk1. simpl length in Hcap. lia.
Qed.

Lemma sizes_all (k : Z) (rows : list (Row.t Job)) (groups : list (list Job)) :
  map Row.count rows = map (fun g => Z.of_nat (length g)) groups ->
  Forall (fun r => Row.count r = k) rows ->
  Forall (fun g => Z.of_nat (length g) = k) groups.
Proof.
  revert groups; induction rows as [|r rows IH]; intros [|g groups];
    simpl; try easy.
  intros [= Hc Hrest] Hall. inversion Hall as [|? ? Hr Hrows]; subst.
  constructor; [lia | now apply IH].
Qed.

Lemma sizes_bounded (k : Z) (rows : list (Row.t Job)) (groups : list (list Job)) :
  map Row.count rows = map (fun g => Z.of_nat (length g)) groups ->
  Forall (fun r => Row.count r <= k) rows ->
  Forall (fun g => Z.of_nat (length g) <= k) groups.
Proof.
  revert groups; induction rows as [|r rows IH]; intros [|g groups];
    simpl; try easy.
  intros [= Hc Hrest] Hall. inversion Hall as [|? ? Hr Hrows]; subst.
  constructor; [lia | now apply IH].
Qed.

(** X13: the completion order of [run_prs].  On a valid workload
    ([k > 0], [n > 0], priorities in [1, n], [m] unset or large enough)
    [jobs] is cut into consecutive groups, all of [k] jobs except
    possibly the last, which has between 1 and [k]; [run_prs] completes
    the groups from the last to the first, and each group sorted by
    priority from 1 to [n], the newest job first within a priority. *)
Theorem X13_run_prs_order :
  forall (jobs : list Job) (k n : Z) (m : option Z),
    0 < k -> 0 < n ->
    Forall (fun job => 1 <= job_priority job <= n) jobs ->
    (forall mv, m = Some mv -> 0 < mv /\ Z.of_nat (length jobs) <= k * mv) ->
    exists groups : list (list Job),
      concat groups = jobs /\
      Forall (fun g => g <> [] /\ Z.of_nat (length g) <= k) groups /\
      (forall gs g, groups = gs ++ [g] ->
                    Forall (fun g' => Z.of_nat (length g') = k) gs) /\
      run_prs jobs k n m
      = Some (Ok (concat
                    (map (fun g => by_priority n (entries job_priority g))
                         (rev groups)))).
Proof.
  intros jobs k n m Hk Hn Hall Hcap.
  assert (H0 : prs_ok (@PRS.mk Job k n m [] 0)).
  { split; simpl; auto; try lia.
    - intros mv Hmv. destruct (Hcap _ Hmv). lia.
    - intros [|] ? ?; discriminate. }
  assert (Hcap0 : forall mv, PRS.m (@PRS.mk Job k n m [] 0) = Some mv ->
                    PRS._size (@PRS.mk Job k n m [] 0)
                    + Z.of_nat (length jobs)
                    <= PRS.k (@PRS.mk Job k n m [] 0) * mv).
  { simpl. intros mv Hmv. destruct (Hcap _ Hmv). lia. }
  destruct (push_all_groups jobs _ [] H0 Hall Hcap0)
    as (groups & Hold & Hcat & Hne); [constructor | constructor |].
  pose proof (push_all_k jobs _ H0 Hall Hcap0) as Hks.
  destruct (push_all_valid jobs _ H0 Hall Hcap0)
    as (s' & Hpush & Hok & Hsz & _ & _).
  rewrite Hpush in Hold, Hks. cbn [snd PRS.k PRS.n] in Hold, Hks.
  simpl in Hcat, Hsz.
  pose proof (rows_hold_sizes _ _ _ _ _ Hold) as Hsizes.
  exists groups. split; [exact Hcat|]. split; [|split].
  - apply Forall_and; [exact Hne|].
    apply (sizes_bounded k _ _ Hsizes).
    pose proof (inv_rows _ Hok) as Hrows. revert Hrows.
    apply Forall_impl. intros r Hr. apply row_of_count in Hr. lia.
  - intros gs g ->. unfold rows_hold in Hold.
    apply Forall2_app_inv_r in Hold as (rs & r1 & Hrs & Hr1 & Erows).
    inversion Hr1 as [|r ? ? ? _ Hnil]; subst. inversion Hnil; subst.
    pose proof (inv_full _ Hok _ _ Erows) as Hfull.
    apply (sizes_all _ rs); [|exact Hfull].
    now apply (rows_hold_sizes job_priority (PRS.k s') n).
  - unfold run_prs. rewrite new_spec_stack.
    replace (k <=? 0) with false by lia.
    replace (n <=? 0) with false by lia. simpl.
    assert (Hm : match m with Some mv => mv <=? 0 | None => false end = false).
    { destruct m as [mv|]; [|easy]. destruct (Hcap _ eq_refl). lia. }
    rewrite Hm, Hpush, pop_all_more_fuel by easy.
    now rewrite (rows_hold_order job_priority k n _ _ Hold).
Qed.

Lemma X13_witness :
  0 < 2 /\ 0 < 2 /\
  Forall (fun job => 1 <= job_priority job <= 2)
         [Build_Job "job-1" 2 0; Build_Job "job-2" 1 1; Build_Job "job-3" 2 2] /\
  exists groups : list (list Job),
    concat groups
    = [Build_Job "job-1" 2 0; Build_Job "job-2" 1 1; Build_Job "job-3" 2 2] /\
    run_prs [Build_Job "job-1" 2 0; Build_Job "job-2" 1 1;
             Build_Job "job-3" 2 2] 2 2 None
    = Some (Ok (concat
                  (map (fun g => by_priority 2 (entries job_priority g))
                       (rev groups)))).
Proof.
  assert (H1 : 0 < 2) by lia.
  assert (H2 : Forall (fun job => 1 <= job_priority job <= 2)
                 [Build_Job "job-1" 2 0; Build_Job "job-2" 1 1;
                  Build_Job "job-3" 2 2])
    by (repeat constructor; simpl; lia).
  split; [exact H1|]. split; [exact H1|]. split; [exact H2|].
  destruct (X13_run_prs_order _ 2 2 None H1 H1 H2) as (groups & Hc & _ & _ & Hr).
  - intros mv H. discriminate H.
  - exists groups. split; [exact Hc | exact Hr].
Defined.

(** X14: the row limit is recoverable.  When a push is refused with the
    row-limit [PRSError] in a reachable state, the stack holds [k * m]
    items, the next [pop] returns an item, and after it a push with any
    priority in [1, n] is accepted. *)
Theorem X14_row_limit_recoverable :
  forall (T : Type) (s : PRS.t T) (x x' : T) (p p' : Z),
    reachable s ->
    fst (PRS.push x p s) = Raise PRSError ->
    1 <= p' <= PRS.n s ->
    (exists mv, PRS.m s = Some mv /\ PRS.size s = PRS.k s * mv) /\
    (exists y, fst (PRS.pop s) = Ok y) /\
    fst (PRS.push x' p' (snd (PRS.pop s))) = Ok tt.
Proof.
  intros T s x x' p p' Hr Hfail Hp'. apply reachable_ok in Hr.
  assert (Hl : at_row_limit s = true).
  { destruct (push_result_cases s x p Hr)
      as [[Hl _] | [(_ & _ & E) | (_ & _ & E & _)]];
      [easy | rewrite E in Hfail; discriminate
       | rewrite E in Hfail; discriminate]. }
  assert (Hfull : exists mv, PRS.m s = Some mv /\ PRS._size s = PRS.k s * mv).
  { destruct (PRS.m s) as [mv|] eqn:Em.
    - exists mv. split; [easy|].
      destruct (Z_lt_dec (PRS._size s) (PRS.k s * mv)) as [Hlt|Hge].
      + assert (at_row_limit s = false); [|congruence].
        apply at_row_limit_size; [easy|]. intros mv' Hmv'. congruence.
      + destruct (inv_m _ Hr _ Em) as [_ Hlen].
        pose proof (size_bounds s Hr) as [_ Hb]. pose proof (inv_k _ Hr).
        unfold PRS.rows_count, PRS.size in Hb. nia.
    - unfold at_row_limit in Hl. rewrite Em, andb_false_r in Hl.
      discriminate. }
  destruct Hfull as (mv & Em & Esz).
  split; [now exists mv|].
  destruct (inv_m _ Hr _ Em) as [Hmv _]. pose proof (inv_k _ Hr) as Hk.
  assert (Hz : PRS._size s <> 0) by nia.
  destruct (peek_pop_nonempty s Hr Hz)
    as (rs & r & i & b & y & _ & _ & _ & _ & Hpop & Hok & _).
  rewrite Hpop. cbn [fst snd]. split; [now exists y|].
  destruct (push_result_cases _ x' p' Hok)
    as [[Hl' _] | [(_ & Hbad & _) | (_ & _ & E & _)]]; [| |exact E].
  - assert (at_row_limit (popped_stack s rs (popped r i b)) = false);
      [|congruence].
    apply at_row_limit_size; [easy|]. simpl.
    intros mv' Hmv'. rewrite Em in Hmv'. injection Hmv' as <-. lia.
  - now simpl in Hbad.
Qed.

Lemma X14_witness :
  reachable (snd (run [Push "r1" 1; Push "r2" 1] (PRS.mk 1 1 (Some 2) [] 0))) /\
  fst (PRS.push "r3" 1
         (snd (run [Push "r1" 1; Push "r2" 1] (PRS.mk 1 1 (Some 2) [] 0))))
  = Raise PRSError /\
  1 <= 1 <= 1 /\
  fst (PRS.push "r4" 1
         (snd (PRS.pop
                 (snd (run [Push "r1" 1; Push "r2" 1]
                           (PRS.mk 1 1 (Some 2) [] 0))))))
  = Ok tt.
Proof.
  assert (H0 : reachable (snd (run [Push "r1" 1; Push "r2" 1]
                                   (PRS.mk 1 1 (Some 2) [] 0)))).
  { apply run_app_state. apply (reach_new 1 1 (Some 2)). reflexivity. }
  assert (H1 : fst (PRS.push "r3" 1
                      (snd (run [Push "r1" 1; Push "r2" 1]
                                (PRS.mk 1 1 (Some 2) [] 0))))
               = Raise PRSError) by reflexivity.
  assert (H2 : 1 <= 1 <= 1) by lia.
  split; [exact H0|]. split; [exact H1|]. split; [exact H2|].
  apply (X14_row_limit_recoverable string _ "r3" "r4" 1 1 H0 H1 H2).
Defined.
